(** * dotenv: a shallow embedding of [pkg/dotenv.go]

  The Go package parses [.env] files into a [map[string]string].  This
  development embeds the parser ([Parse], [extractValue], [parseEscape],
  [substituteVariables]) together with the parts of Go's [strings],
  [regexp] and [bufio] packages it calls, and states the properties of the
  specification against that embedding.

  Go strings are byte sequences; they are modelled as [list ascii].  The
  [bufio.Scanner] is modelled by the list of lines it still has to
  deliver: [scanner.Scan()] followed by [scanner.Text()] pops the head.
  (The scanner stops at a line that exceeds its buffer; the list then ends
  there.)  A run-time panic (a slice expression out of range) is an
  outcome of its own, distinct from a returned [error].

  [Read] and [Load] open files and set environment variables around
  [Parse].  They are embedded over a function that stands for [os.Open]
  followed by the scanner (the error of opening, or the lines of the
  file) and over the environment as a finite map; [path.Ext] and
  [os.Setenv] are modelled as on Unix.  Go leaves the order of a range
  over a map open; [Load] takes it as a parameter. *)

From Stdlib Require Import String Ascii List ZArith Lia Bool.
From stdpp Require Import base option list gmap strings.

(** ** Go strings *)

Abbreviation str := (list ascii).

Definition s2l (s : string) : str := list_ascii_of_string s.
Coercion s2l : string >-> list.

Definition byte (n : nat) : ascii := ascii_of_nat n.

Definition LF : ascii := byte 10.        (* \n *)
Definition CR : ascii := byte 13.        (* \r *)
Definition TAB : ascii := byte 9.        (* \t *)
Definition FF : ascii := byte 12.        (* \f *)
Definition BS : ascii := byte 8.         (* \b *)
Definition dquote : ascii := byte 34.    (* the double quote *)
Definition squote : ascii := byte 39.    (* ' *)
Definition bslash : ascii := byte 92.    (* the backslash *)
Definition dollar : ascii := byte 36.    (* $ *)
Definition hash : ascii := byte 35.      (* # *)
Definition equals : ascii := byte 61.    (* = *)

Definition eqb (a b : ascii) : bool := bool_decide (a = b).

Definition inRange (lo hi c : ascii) : bool :=
  (nat_of_ascii lo <=? nat_of_ascii c) && (nat_of_ascii c <=? nat_of_ascii hi).

Module strings.

(** [strings.HasPrefix], [strings.HasSuffix]. *)
Definition HasPrefix (s prefix : str) : bool := bool_decide (prefix `prefix_of` s).
Definition HasSuffix (s suffix : str) : bool := bool_decide (suffix `suffix_of` s).

(** [strings.TrimPrefix], [strings.TrimSuffix]: remove one occurrence. *)
Definition TrimPrefix (s prefix : str) : str :=
  if HasPrefix s prefix then drop (length prefix) s else s.
Definition TrimSuffix (s suffix : str) : str :=
  if HasSuffix s suffix then take (length s - length suffix) s else s.

(** [unicode.IsSpace] on the runes below U+0080: tab, line feed, vertical
    tab, form feed, carriage return, space. *)
Definition asciiSpace (c : ascii) : bool :=
  inRange TAB CR c || eqb c " ".

(** The other runes with [unicode.IsSpace], by their UTF-8 encodings:
    U+0085 and U+00A0 take two bytes; U+1680, U+2000..U+200A, U+2028,
    U+2029, U+202F, U+205F and U+3000 take three. *)
Definition space2 (c1 c2 : ascii) : bool :=
  eqb c1 (byte 194) && (eqb c2 (byte 133) || eqb c2 (byte 160)).

Definition space3 (c1 c2 c3 : ascii) : bool :=
  (eqb c1 (byte 225) && eqb c2 (byte 154) && eqb c3 (byte 128))
  || (eqb c1 (byte 226) && eqb c2 (byte 128)
      && (inRange (byte 128) (byte 138) c3 || eqb c3 (byte 168)
          || eqb c3 (byte 169) || eqb c3 (byte 175)))
  || (eqb c1 (byte 226) && eqb c2 (byte 129) && eqb c3 (byte 159))
  || (eqb c1 (byte 227) && eqb c2 (byte 128) && eqb c3 (byte 128)).

(** [strings.TrimLeftFunc(s, unicode.IsSpace)]: drop leading space runes.
    An ill-formed byte decodes to U+FFFD, which is not a space. *)
Fixpoint TrimLeftSpace (s : str) : str :=
  match s with
  | [] => []
  | c1 :: s1 =>
      if asciiSpace c1 then TrimLeftSpace s1 else
      match s1 with
      | c2 :: s2 =>
          if space2 c1 c2 then TrimLeftSpace s2 else
          match s2 with
          | c3 :: s3 => if space3 c1 c2 c3 then TrimLeftSpace s3 else s
          | [] => s
          end
      | [] => s
      end
  end.

(** The same from the end, on the reversed string
    ([utf8.DecodeLastRuneInString] steps back to the rune's first byte). *)
Fixpoint trimRevSpace (r : str) : str :=
  match r with
  | [] => []
  | c1 :: r1 =>
      if asciiSpace c1 then trimRevSpace r1 else
      match r1 with
      | c2 :: r2 =>
          if space2 c2 c1 then trimRevSpace r2 else
          match r2 with
          | c3 :: r3 => if space3 c3 c2 c1 then trimRevSpace r3 else r
          | [] => r
          end
      | [] => r
      end
  end.

Definition TrimRightSpace (s : str) : str := reverse (trimRevSpace (reverse s)).

(** [strings.TrimSpace]. *)
Definition TrimSpace (s : str) : str := TrimRightSpace (TrimLeftSpace s).

(** [strings.SplitN(s, sep, n)] for a one-byte separator and [n >= 0]:
    at most [n] pieces, the last one the unsplit remainder. *)
Fixpoint SplitN (s : str) (sep : ascii) (n : nat) : list str :=
  match n with
  | 0 => []
  | 1 => [s]
  | S n' =>
      match s with
      | [] => [[]]
      | c :: s' =>
          if eqb c sep then [] :: SplitN s' sep n'
          else match SplitN s' sep n with
               | piece :: pieces => (c :: piece) :: pieces
               | [] => [[c]]
               end
      end
  end.

(** [strings.Split(s, sep)] for a one-byte separator: all the pieces. *)
Fixpoint Split (s : str) (sep : ascii) : list str :=
  match s with
  | [] => [[]]
  | c :: s' =>
      if eqb c sep then [] :: Split s' sep
      else match Split s' sep with
           | piece :: pieces => (c :: piece) :: pieces
           | [] => [[c]]
           end
  end.

End strings.

(** ** Go slice expressions

  [s[lo:hi]] on a string panics unless [0 <= lo <= hi <= len(s)];
  [None] is that panic. *)
Definition slice (s : str) (lo hi : Z) : option str :=
  if bool_decide (0 <= lo <= hi ∧ hi <= Z.of_nat (length s))%Z
  then Some (take (Z.to_nat (hi - lo)) (drop (Z.to_nat lo) s))
  else None.

(** ** Regular expressions (package [regexp])

  The four patterns of the package are built from literals, character
  classes, the optional [?], and [+] and [*] over a class.  Go matches
  leftmost-first: of the matches starting at the leftmost possible
  position it takes the one a backtracking search finds first, every
  quantifier being greedy.  [rmatch r s k] is that search: it tries the
  ways [r] can match a prefix of [s] in priority order and returns the
  first for which the continuation [k] accepts the rest.

  Matching is by byte where Go matches by rune.  The two classes of the
  package that accept bytes above 0x7F stand behind a backslash in
  patterns whose replacement keeps the matched bytes, all of them or all
  but the backslash; a rune matched as a whole and its first byte matched
  alone then give the same output. *)
Module regexp.

Inductive regex : Type :=
| Lit (c : ascii)
| Class (p : ascii -> bool)
| Opt (r : regex)
| PlusC (p : ascii -> bool)
| StarC (p : ascii -> bool)
| Seq (r1 r2 : regex).

Fixpoint starK (p : ascii -> bool) (s : str) (k : str -> option str) : option str :=
  match s with
  | c :: s' =>
      if p c then
        match starK p s' k with
        | Some rest => Some rest
        | None => k s
        end
      else k s
  | [] => k s
  end.

Fixpoint rmatch (r : regex) (s : str) (k : str -> option str) : option str :=
  match r with
  | Lit c =>
      match s with
      | c' :: s' => if eqb c' c then k s' else None
      | [] => None
      end
  | Class p =>
      match s with
      | c' :: s' => if p c' then k s' else None
      | [] => None
      end
  | Opt r' =>
      match rmatch r' s k with
      | Some rest => Some rest
      | None => k s
      end
  | PlusC p =>
      match s with
      | c' :: s' => if p c' then starK p s' k else None
      | [] => None
      end
  | StarC p => starK p s k
  | Seq r1 r2 => rmatch r1 s (fun s' => rmatch r2 s' k)
  end.

(** Length of the leftmost-first match of [r] starting at the first byte
    of [s], if there is one. *)
Definition matchAt (r : regex) (s : str) : option nat :=
  (fun rest => length s - length rest) <$> rmatch r s Some.

(** A compiled pattern: [anchored] stands for a leading [^]. *)
Record Regexp : Type := MustCompile { anchored : bool; body : regex }.

(** [re.MatchString(s)]: is there a match anywhere in [s]? *)
Fixpoint matchSomewhere (r : regex) (s : str) : bool :=
  match matchAt r s with
  | Some _ => true
  | None => match s with
            | _ :: s' => matchSomewhere r s'
            | [] => false
            end
  end.

Definition MatchString (re : Regexp) (s : str) : bool :=
  if anchored re then bool_decide (is_Some (matchAt (body re) s))
  else matchSomewhere (body re) s.

(** The successive non-overlapping matches of [r] in [s], with the bytes
    between them.  [skip] counts the bytes of [s] still covered by the
    match found last.  None of the patterns replaced in this package
    matches the empty string (each starts with a mandatory literal), so
    an empty match is not a case here. *)
Inductive piece : Type :=
| Keep (c : ascii)
| Hit (m : str).

Fixpoint findAll (r : regex) (s : str) (skip : nat) : list piece :=
  match s with
  | [] => []
  | c :: s' =>
      match skip with
      | S n => findAll r s' n
      | 0 =>
          match matchAt r s with
          | Some (S n) => Hit (take (S n) s) :: findAll r s' n
          | _ => Keep c :: findAll r s' 0
          end
      end
  end.

(** [re.ReplaceAllStringFunc(s, repl)]. *)
Definition ReplaceAllStringFunc (re : Regexp) (s : str) (repl : str -> str) : str :=
  concat (map (fun p => match p with Keep c => [c] | Hit m => repl m end)
              (findAll (body re) s 0)).

(** The same for a callback that may panic: the first panic, in the
    order of the matches, ends the call ([None]). *)
Definition ReplaceAllStringFuncP (re : Regexp) (s : str)
    (repl : str -> option str) : option str :=
  (fun l => concat l) <$> mapM (fun p => match p with Keep c => Some [c] | Hit m => repl m end)
                  (findAll (body re) s 0).

End regexp.

(** ** Errors and outcomes *)

(** Go [error] values: [errors.New] and [fmt.Errorf] with one [%w] verb,
  which keeps the wrapped error reachable for [errors.Is]. *)
Inductive error : Type :=
| New (text : str)
| Wrap (text : str) (cause : error).

Definition Error (e : error) : str :=
  match e with New text => text | Wrap text _ => text end.

Global Instance error_eq_dec : EqDecision error.
Proof. solve_decision. Defined.

(** [errors.Is(err, target)]. *)
Fixpoint Is (err target : error) : bool :=
  bool_decide (err = target)
  || match err with
     | Wrap _ cause => Is cause target
     | New _ => false
     end.

(** What a call does: return a value with a nil error, return an error, or
  panic. *)
Inductive outcome (A : Type) : Type :=
| Return (a : A)
| Fail (err : error)
| Panic.
Arguments Return {A} a.
Arguments Fail {A} err.
Arguments Panic {A}.

(** ** Package [path] *)
Module path.

(** The loop of [path.Ext], on the reversed path: [i] runs from the last
    byte down, stops at a slash, and returns [path[i:]] at the first dot.
    [suffix] is [path[i+1:]]. *)
Fixpoint extScan (rev_path suffix : str) : str :=
  match rev_path with
  | [] => []
  | c :: rest =>
      if eqb c "/" then []
      else if eqb c "." then c :: suffix
      else extScan rest (c :: suffix)
  end.

Definition Ext (path : str) : str := extScan (reverse path) [].

End path.

(** ** Package [os] *)
Module os.

Definition NUL : ascii := byte 0.

(** [os.Setenv] on Unix: [syscall.Setenv] refuses an empty key, a key with
    [=] or a NUL byte, and a value with a NUL byte ([EINVAL]); [os.Setenv]
    wraps that as a syscall error.  Otherwise the variable is set. *)
Definition setenvError : error := New "setenv: invalid argument".

Definition Setenv (key value : str) (environ : gmap str str)
    : error + gmap str str :=
  if bool_decide (length key = 0) then inl setenvError
  else if existsb (λ c, eqb c equals || eqb c NUL) key then inl setenvError
  else if existsb (λ c, eqb c NUL) value then inl setenvError
  else inr (<[key := value]> environ).

End os.


(** ** Package [dotenv] *)
Module dotenv.
Import strings regexp.

Definition inValidFileExtension : error := New "invalid file extension".
Definition inValidLine : error := New "invalid line".
Definition inValidKey : error := New "invalid key".
Definition unterminatedMultiLine : error := New "unterminated multiline value".
Definition unterminatedQuote : error := New "unterminated quoted value".
Definition unexpectedCharacters : error := New "unexpected characters after value".

(** Character classes of the patterns. *)
Definition letter_ (c : ascii) : bool :=
  inRange "a" "z" c || inRange "A" "Z" c || eqb c "_".
Definition alnum_ (c : ascii) : bool :=
  inRange "a" "z" c || inRange "A" "Z" c || inRange "0" "9" c || eqb c "_".
Definition upperNum_ (c : ascii) : bool :=
  inRange "A" "Z" c || inRange "0" "9" c || eqb c "_".
(** [.] without the [s] flag: any byte but the line feed. *)
Definition dot (c : ascii) : bool := negb (eqb c LF).
(** [[^$]]; a negated class does match the line feed. *)
Definition notDollar (c : ascii) : bool := negb (eqb c dollar).

(** [^[a-zA-Z_]+[a-zA-Z0-9_]*] *)
Definition keyRegex : Regexp :=
  MustCompile true (Seq (PlusC letter_) (StarC alnum_)).

(** [(\\)?(\$)(\()?\{?([A-Z0-9_]+)?\}?] *)
Definition substituteVarRegex : Regexp :=
  MustCompile false
    (Seq (Opt (Lit bslash))
    (Seq (Lit dollar)
    (Seq (Opt (Lit "("))
    (Seq (Opt (Lit "{"))
    (Seq (Opt (PlusC upperNum_))
         (Opt (Lit "}"))))))).

(** [\\.] *)
Definition escapeRegex : Regexp :=
  MustCompile false (Seq (Lit bslash) (Class dot)).

(** [\\([^$])] *)
Definition unescapeRegex : Regexp :=
  MustCompile false (Seq (Lit bslash) (Class notDollar)).

(** The text of capture group 1 inside a match [m] of [unescapeRegex]:
    the pattern is a backslash followed by the group. *)
Definition unescapeGroup1 (m : str) : str := drop 1 m.

Definition isMultiLine (line : str) : bool :=
  HasPrefix line [dquote; dquote; dquote] || HasPrefix line "'''".

(** The function literal passed to [escapeRegex.ReplaceAllStringFunc]. *)
Definition parseEscape_func (match_ : str) : str :=
  let c := TrimPrefix match_ [bslash] in
  if bool_decide (c = "n") then [LF]
  else if bool_decide (c = "r") then [CR]
  else if bool_decide (c = "t") then [TAB]
  else if bool_decide (c = "f") then [FF]
  else if bool_decide (c = "b") then [BS]
  else match_.

Definition parseEscape (s : str) : str :=
  let out := ReplaceAllStringFunc escapeRegex s parseEscape_func in
  (* unescapeRegex.ReplaceAllString(out, "$1") *)
  ReplaceAllStringFunc unescapeRegex out unescapeGroup1.

(** The function literal passed to
    [substituteVarRegex.ReplaceAllStringFunc].  It slices
    [match[2:len(match)-1]] whatever the shape of the match; [None] is
    the panic of that slice expression. *)
Definition substituteVariables_func (envVars : gmap str str) (match_ : str)
    : option str :=
  match slice match_ 2 (Z.of_nat (length match_) - 1) with
  | None => None
  | Some name =>
      match envVars !! name with
      | None => Some []
      | Some v => Some v
      end
  end.

Definition substituteVariables (line : str) (envVars : gmap str str) : option str :=
  ReplaceAllStringFuncP substituteVarRegex line (substituteVariables_func envVars).

(** The [for scanner.Scan()] loop of the triple-quoted branch. *)
Fixpoint multiLineLoop (prefix : str) (multilineVal : str) (scanner : list str)
    (currentEnvVars : gmap str str) : outcome (str * list str) :=
  match scanner with
  | [] => Fail unterminatedMultiLine
  | line :: scanner' =>
      if HasSuffix line prefix then
        Return (TrimSuffix multilineVal [LF], scanner')
      else
        let line := TrimSuffix line prefix in
        let line := TrimSuffix line prefix in
        let substituted :=
          if bool_decide (prefix = [dquote; dquote; dquote])
          then substituteVariables line currentEnvVars
          else Some line in
        match substituted with
        | None => Panic
        | Some line =>
            multiLineLoop prefix (multilineVal ++ parseEscape line ++ [LF])
                          scanner' currentEnvVars
        end
  end.

(** The [for i := 1; i < len(val); i++] loop of the quoted branch.  It
    assigns to [val] inside the loop, and [len(val)] is read again at
    every test.  [n] bounds the number of iterations. *)
Fixpoint quoteLoop (n : nat) (i : nat) (prefix : ascii) (val remaining : str)
    : str * str :=
  match n with
  | 0 => (val, remaining)
  | S n' =>
      if bool_decide (i < length val) then
        if bool_decide (val !! i = Some prefix)
           && negb (bool_decide (0 < i) && bool_decide (val !! (i - 1) = Some bslash))
        then quoteLoop n' (S i) prefix
               (take (i - 1) (drop 1 val))          (* val[1:i] *)
               (TrimSpace (drop (i + 1) val))       (* val[i+1:] *)
        else quoteLoop n' (S i) prefix val remaining
      else (val, remaining)
  end.

(** [extractValue] returns the value and leaves the scanner advanced past
    the lines it read; both are returned here. *)
Definition extractValue (val : str) (scanner : list str)
    (currentEnvVars : gmap str str) : outcome (str * list str) :=
  if negb (HasPrefix val "'") && negb (HasPrefix val [dquote]) then
    match substituteVariables
            (TrimSpace (default [] (head (Split val hash)))) currentEnvVars with
    | Some v => Return (parseEscape v, scanner)
    | None => Panic
    end
  else if isMultiLine val then
    let prefix : str :=
      if HasPrefix val [dquote; dquote; dquote]
      then [dquote; dquote; dquote] else "'''" in
    multiLineLoop prefix [] scanner currentEnvVars
  else
    let prefix : ascii := if HasPrefix val "'" then squote else dquote in
    let '(val, remaining) :=
      if HasPrefix val [prefix]
      then quoteLoop (length val) 1 prefix val []
      else (val, []) in
    if HasPrefix val [prefix] then Fail unterminatedQuote
    else
      let substituted :=
        if eqb prefix dquote
        then parseEscape <$> substituteVariables val currentEnvVars
        else Some val in
      match substituted with
      | None => Panic
      | Some val =>
          if negb (bool_decide (TrimSpace remaining = []))
             && negb (HasPrefix remaining "#")
          then Fail unexpectedCharacters
          else Return (val, scanner)
      end.

(** [fmt.Errorf("%w for %s", inValidKey, key)] *)
Definition invalidKeyError (key : str) : error :=
  Wrap (Error inValidKey ++ " for " ++ key) inValidKey.

(** [fmt.Errorf("failed to parse value for key %s %w", key, err)] *)
Definition valueError (key : str) (err : error) : error :=
  Wrap ("failed to parse value for key " ++ key ++ " " ++ Error err) err.

(** The [for scanner.Scan()] loop of [Parse], from the state it is in at
    the top of an iteration: the mapping built so far and the lines not
    yet read.  Every iteration reads at least one line, so
    [S (length scanner)] iterations are enough; [None] stands for an
    insufficient bound. *)
Fixpoint parseLoop (n : nat) (envVars : gmap str str) (scanner : list str)
    : option (outcome (gmap str str)) :=
  match n with
  | 0 => None
  | S n' =>
      match scanner with
      | [] => Some (Return envVars)
      | line :: scanner' =>
          if HasPrefix line "#" || bool_decide (length (TrimSpace line) = 0)
          then parseLoop n' envVars scanner'
          else
            let line := TrimPrefix line "export " in
            match SplitN line equals 2 with
            | [k; v] =>
                let key := TrimSpace k in
                if negb (MatchString keyRegex key)
                then Some (Fail (invalidKeyError key))
                else
                  match extractValue v scanner' envVars with
                  | Fail err => Some (Fail (valueError key err))
                  | Panic => Some Panic
                  | Return (val, scanner'') =>
                      parseLoop n' (<[key := val]> envVars) scanner''
                  end
            | _ => Some (Fail inValidLine)
            end
      end
  end.

(** [Parse], on the lines the scanner yields for the reader. *)
Definition Parse (envFile : list str) : option (outcome (gmap str str)) :=
  parseLoop (S (length envFile)) ∅ envFile.

(** [fmt.Errorf("%w for file %s", inValidFileExtension, filename)] *)
Definition invalidExtensionError (filename : str) : error :=
  Wrap (Error inValidFileExtension ++ " for file " ++ filename)
       inValidFileExtension.

(** [for key, val := range vars { envVars[key] = val }] *)
Definition mergeInto (envVars vars : gmap str str) : gmap str str :=
  map_fold (λ key val acc, <[key := val]> acc) envVars vars.

(** The [for _, filename := range filenames] loop of [Read].  [open] stands
    for [os.Open] followed by the scanner over the file: the error of
    opening, or the lines of the file.  The calls to [log.Println] and
    [envFile.Close] are left out. *)
Fixpoint readLoop (open : str → error + list str) (envVars : gmap str str)
    (filenames : list str) : option (outcome (gmap str str)) :=
  match filenames with
  | [] => Some (Return envVars)
  | filename :: filenames' =>
      if negb (bool_decide (path.Ext filename = ".env"))
      then Some (Fail (invalidExtensionError filename))
      else
        match open filename with
        | inl err => Some (Fail err)
        | inr envFile =>
            match Parse envFile with
            | None => None
            | Some (Fail err) => Some (Fail err)
            | Some Panic => Some Panic
            | Some (Return vars) =>
                readLoop open (mergeInto envVars vars) filenames'
            end
        end
  end.

Definition Read (open : str → error + list str) (filenames : list str)
    : option (outcome (gmap str str)) :=
  readLoop open ∅ filenames.

(** The [for key, val := range envVars] loop of [Load] over the entries in
    the order the range statement happens to visit them; it stops at the
    first [os.Setenv] that fails.  The environment of the process is the
    second component. *)
Fixpoint setenvLoop (entries : list (str * str)) (environ : gmap str str)
    : outcome unit * gmap str str :=
  match entries with
  | [] => (Return (), environ)
  | (key, val) :: entries' =>
      match os.Setenv key val environ with
      | inl err => (Fail err, environ)
      | inr environ' => setenvLoop entries' environ'
      end
  end.

(** [Load].  Go leaves the order of a range over a map open; [order]
    stands for it and is any rearrangement of the entries. *)
Definition Load (open : str → error + list str)
    (order : list (str * str) → list (str * str))
    (filenames : list str) (environ : gmap str str)
    : option (outcome unit * gmap str str) :=
  match Read open filenames with
  | None => None
  | Some (Fail err) => Some (Fail err, environ)
  | Some Panic => Some (Panic, environ)
  | Some (Return envVars) =>
      Some (setenvLoop (order (map_to_list envVars)) environ)
  end.


End dotenv.

(** * Vocabulary of the statements *)
Section vocabulary.
Import strings regexp dotenv.

(** Bytes that can belong to the encoding of a space rune. *)
Definition spaceByte (c : ascii) : bool :=
  asciiSpace c || (128 <=? nat_of_ascii c).

(** A reference in braces: [${name}]. *)
Definition braceRef (name : str) : str := dollar :: "{" ++ name ++ "}".

(** Names of the substitution grammar: bytes of [[A-Z0-9_]]. *)
Definition isName (name : str) : Prop := Forall (λ c, upperNum_ c = true) name.

(** The closing quote of a quoted value is the first quote byte of the
    same kind that is not immediately preceded by a backslash.
    [closingQuote prefix prev s] is its offset in [s], [prev] being the
    byte in front of [s]. *)
Fixpoint closingQuote (prefix prev : ascii) (s : str) : option nat :=
  match s with
  | [] => None
  | c :: s' =>
      if eqb c prefix && negb (eqb prev bslash) then Some 0
      else S <$> closingQuote prefix c s'
  end.

(** What is left to do once the closing quote is found: report trailing
    text that is not a comment. *)
Definition checkRemaining {A : Type} (remaining : str) (result : A) : outcome A :=
  if negb (bool_decide (remaining = [])) && negb (HasPrefix remaining "#")
  then Fail unexpectedCharacters
  else Return result.

Definition tripleD : str := [dquote; dquote; dquote].
Definition tripleS : str := [squote; squote; squote].

(** The lines of a triple-quoted value, as the loop accumulates them. *)
Definition decodedLines (lines : list str) : str :=
  concat (map (λ line, parseEscape line ++ [LF]) lines).

(** Keys of the grammar [[A-Za-z_][A-Za-z0-9_]*], matched in full. *)
Definition isKey (key : str) : Prop :=
  ∃ c key', key = c :: key' ∧ letter_ c = true
            ∧ Forall (λ c, alnum_ c = true) key'.


(** Trailing text a closed quote may be followed by: nothing but space, or
    a comment. *)
Definition commentOrBlank (trailing : str) : Prop :=
  TrimSpace trailing = [] ∨ HasPrefix (TrimSpace trailing) "#" = true.

(** An assignment line [key="content"trailing] and its single-quoted twin. *)
Definition assignD (key content trailing : str) : str :=
  key ++ equals :: dquote :: content ++ dquote :: trailing.
Definition assignS (key content trailing : str) : str :=
  key ++ equals :: squote :: content ++ squote :: trailing.

(** The rest of [s] after its longest prefix of bytes in the class [p]. *)
Fixpoint skipClass (p : ascii → bool) (s : str) : str :=
  match s with
  | c :: s' => if p c then skipClass p s' else s
  | [] => []
  end.

(** [s] without its first byte when that byte is [c]. *)
Definition dropByte (c : ascii) (s : str) : str :=
  match s with
  | d :: s' => if eqb d c then s' else s
  | [] => []
  end.

(** What [substituteVarRegex] leaves of [s] behind the [$]: an optional
    parenthesis, an optional brace, an optional name and an optional
    closing brace are taken, each as far as it goes. *)
Definition afterDollar (s : str) : str :=
  dropByte "}" (skipClass upperNum_ (dropByte "{" (dropByte "(" s))).

(** The bytes a match of [substituteVarRegex] can start with. *)
Definition startsToken (b : ascii) : Prop := b = dollar ∨ b = bslash.

(** What one escape sequence stands for: the byte [d] behind a backslash. *)
Definition escapeOf (d : ascii) : str :=
  if eqb d "n" then [LF]
  else if eqb d "r" then [CR]
  else if eqb d "t" then [TAB]
  else if eqb d "f" then [FF]
  else if eqb d "b" then [BS]
  else if eqb d dollar then [bslash; dollar]
  else [d].

(** Escape decoding in one pass from left to right. *)
Fixpoint decodeEscapes (s : str) : str :=
  match s with
  | [] => []
  | c :: s' =>
      if eqb c bslash then
        match s' with
        | [] => [bslash]
        | d :: s'' => escapeOf d ++ decodeEscapes s''
        end
      else c :: decodeEscapes s'
  end.

(** The two passes of [parseEscape]. *)
Definition pass1 (s : str) : str :=
  ReplaceAllStringFunc escapeRegex s parseEscape_func.
Definition pass2 (s : str) : str :=
  ReplaceAllStringFunc unescapeRegex s unescapeGroup1.


(** What [Parse] lets through as a key: a first byte that is a letter or
    an underscore, no [=], no space at either end. *)
Definition storedKey (key : str) : Prop :=
  (∃ c key', key = c :: key' ∧ letter_ c = true)
  ∧ (equals ∉ key) ∧ TrimSpace key = key.

(** A line the loop of [Parse] passes over. *)
Definition skipped (line : str) : Prop :=
  HasPrefix line "#" = true ∨ TrimSpace line = [].

(** Lines joined by line feeds. *)
Fixpoint joinLines (lines : list str) : str :=
  match lines with
  | [] => []
  | [line] => line
  | line :: lines' => line ++ LF :: joinLines lines'
  end.

End vocabulary.

(** * Properties *)

(** ** Facts about the string functions *)
Section strings_facts.
Import strings.

Lemma eqb_eq (a b : ascii) : eqb a b = true ↔ a = b.
Proof. unfold eqb. apply bool_decide_eq_true. Qed.

Lemma eqb_neq (a b : ascii) : eqb a b = false ↔ a ≠ b.
Proof. unfold eqb. apply bool_decide_eq_false. Qed.

Lemma eqb_refl (a : ascii) : eqb a a = true.
Proof. by apply eqb_eq. Qed.

Lemma HasPrefix_true (s p : str) : HasPrefix s p = true ↔ ∃ r, s = p ++ r.
Proof. unfold HasPrefix. rewrite bool_decide_eq_true. reflexivity. Qed.

Lemma HasPrefix_byte (c d : ascii) (s : str) : HasPrefix (c :: s) [d] = eqb d c.
Proof.
  unfold HasPrefix, eqb. apply bool_decide_ext. split.
  - intros H. by apply prefix_cons_inv_1 in H.
  - intros ->. apply prefix_cons, prefix_nil.
Qed.

Lemma HasPrefix_nil_byte (d : ascii) : HasPrefix [] [d] = false.
Proof.
  unfold HasPrefix. apply bool_decide_eq_false. intros [r Hr]. discriminate.
Qed.

Lemma HasPrefix_cons (c d : ascii) (s p : str) :
  HasPrefix (c :: s) (d :: p) = eqb d c && HasPrefix s p.
Proof.
  unfold HasPrefix, eqb.
  destruct (decide (d = c)) as [->|Hne].
  - rewrite (bool_decide_eq_true_2 (c = c)) by done. simpl.
    apply bool_decide_ext. split.
    + apply prefix_cons_inv_2.
    + apply prefix_cons.
  - rewrite (bool_decide_eq_false_2 (d = c)) by done. simpl.
    apply bool_decide_eq_false. intros H. by apply prefix_cons_inv_1 in H.
Qed.

Lemma HasPrefix_nil (s : str) : HasPrefix s [] = true.
Proof. unfold HasPrefix. apply bool_decide_eq_true, prefix_nil. Qed.

Lemma Split_absent (s : str) (sep : ascii) : sep ∉ s → Split s sep = [s].
Proof.
  induction s as [|c s IH]; intros Hs; [done|].
  apply not_elem_of_cons in Hs as [Hc Hs]. simpl.
  rewrite (proj2 (eqb_neq c sep)) by done. by rewrite IH.
Qed.


Lemma SplitN_absent (s : str) (sep : ascii) : sep ∉ s → SplitN s sep 2 = [s].
Proof.
  induction s as [|c s IH]; intros Hs; [done|].
  apply not_elem_of_cons in Hs as [Hc Hs].
  change (SplitN (c :: s) sep 2)
    with (if eqb c sep then [] :: SplitN s sep 1
          else match SplitN s sep 2 with
               | piece :: pieces => (c :: piece) :: pieces
               | [] => [[c]]
               end).
  rewrite (proj2 (eqb_neq c sep)) by done. by rewrite IH.
Qed.

Lemma SplitN_first (k v : str) (sep : ascii) :
  sep ∉ k → SplitN (k ++ sep :: v) sep 2 = [k; v].
Proof.
  induction k as [|c k IH]; intros Hk.
  - simpl. rewrite eqb_refl. by destruct v.
  - apply not_elem_of_cons in Hk as [Hc Hk].
    change (SplitN ((c :: k) ++ sep :: v) sep 2)
      with (if eqb c sep then [] :: SplitN (k ++ sep :: v) sep 1
            else match SplitN (k ++ sep :: v) sep 2 with
                 | piece :: pieces => (c :: piece) :: pieces
                 | [] => [[c]]
                 end).
    rewrite (proj2 (eqb_neq c sep)) by done. by rewrite IH.
Qed.

Ltac split_bools :=
  repeat match goal with
    | H : _ && _ = true |- _ => apply andb_true_iff in H as [? ?]
    | H : _ || _ = true |- _ => apply orb_true_iff in H as [?|?]
    | H : eqb _ _ = true |- _ => apply eqb_eq in H; subst
    end.

Lemma space2_bytes (c1 c2 : ascii) :
  space2 c1 c2 = true → spaceByte c1 = true ∧ spaceByte c2 = true.
Proof. unfold space2. intros H. split_bools; by vm_compute. Qed.

Lemma space3_bytes (c1 c2 c3 : ascii) :
  space3 c1 c2 c3 = true →
  spaceByte c1 = true ∧ spaceByte c2 = true ∧ spaceByte c3 = true.
Proof.
  unfold space3. intros H. split_bools; try by vm_compute.
  repeat split; try by vm_compute.
  unfold spaceByte, inRange in *. split_bools.
  apply orb_true_iff. right. done.
Qed.

Lemma shorter_ind (P : str → Prop) :
  (∀ s, (∀ t, length t < length s → P t) → P s) → ∀ s, P s.
Proof.
  intros step s. remember (length s) as n eqn:Hn.
  revert s Hn. induction n as [n IH] using lt_wf_ind.
  intros s ->. apply step. intros t Ht. by apply (IH (length t)).
Qed.

(** Trimming on the left removes a prefix made of such bytes only. *)
Lemma TrimLeftSpace_decomp (s : str) :
  ∃ pre, s = pre ++ TrimLeftSpace s ∧ Forall (λ c, spaceByte c = true) pre.
Proof.
  induction s as [s IH] using shorter_ind.
  destruct s as [|c1 s1]; [by exists []|]. simpl.
  destruct (asciiSpace c1) eqn:H1.
  { destruct (IH s1) as (pre & E & F); [simpl; lia|].
    exists (c1 :: pre). split; [by rewrite E at 1|].
    constructor; [|done]. unfold spaceByte. by rewrite H1. }
  destruct s1 as [|c2 s2]; [by exists []|].
  destruct (space2 c1 c2) eqn:H2.
  { destruct (IH s2) as (pre & E & F); [simpl; lia|].
    apply space2_bytes in H2 as [? ?].
    exists (c1 :: c2 :: pre). split; [by rewrite E at 1|].
    by repeat constructor. }
  destruct s2 as [|c3 s3]; [by exists []|].
  destruct (space3 c1 c2 c3) eqn:H3; [|by exists []].
  destruct (IH s3) as (pre & E & F); [simpl; lia|].
  apply space3_bytes in H3 as (? & ? & ?).
  exists (c1 :: c2 :: c3 :: pre). split; [by rewrite E at 1|].
  by repeat constructor.
Qed.

Lemma trimRevSpace_decomp (r : str) :
  ∃ pre, r = pre ++ trimRevSpace r ∧ Forall (λ c, spaceByte c = true) pre.
Proof.
  induction r as [r IH] using shorter_ind.
  destruct r as [|c1 r1]; [by exists []|]. simpl.
  destruct (asciiSpace c1) eqn:H1.
  { destruct (IH r1) as (pre & E & F); [simpl; lia|].
    exists (c1 :: pre). split; [by rewrite E at 1|].
    constructor; [|done]. unfold spaceByte. by rewrite H1. }
  destruct r1 as [|c2 r2]; [by exists []|].
  destruct (space2 c2 c1) eqn:H2.
  { destruct (IH r2) as (pre & E & F); [simpl; lia|].
    apply space2_bytes in H2 as [? ?].
    exists (c1 :: c2 :: pre). split; [by rewrite E at 1|].
    by repeat constructor. }
  destruct r2 as [|c3 r3]; [by exists []|].
  destruct (space3 c3 c2 c1) eqn:H3; [|by exists []].
  destruct (IH r3) as (pre & E & F); [simpl; lia|].
  apply space3_bytes in H3 as (? & ? & ?).
  exists (c1 :: c2 :: c3 :: pre). split; [by rewrite E at 1|].
  by repeat constructor.
Qed.

(** [TrimSpace] keeps every byte that belongs to no space rune. *)
Lemma TrimSpace_keeps (c : ascii) (s : str) :
  c ∈ s → spaceByte c = false → c ∈ TrimSpace s.
Proof.
  intros Hin Hc. unfold TrimSpace, TrimRightSpace.
  destruct (TrimLeftSpace_decomp s) as (pre & E & F).
  assert (c ∈ TrimLeftSpace s) as Hl.
  { rewrite E in Hin. apply elem_of_app in Hin as [Hin|]; [|done].
    rewrite Forall_forall in F. apply F in Hin. congruence. }
  destruct (trimRevSpace_decomp (reverse (TrimLeftSpace s))) as (pre' & E' & F').
  apply elem_of_reverse. apply elem_of_reverse in Hl.
  rewrite E' in Hl. apply elem_of_app in Hl as [Hl|]; [|done].
  rewrite Forall_forall in F'. apply F' in Hl. congruence.
Qed.

(** A string trimmed to nothing consists of such bytes. *)
Lemma TrimSpace_nil_bytes (s : str) :
  TrimSpace s = [] → Forall (λ c, spaceByte c = true) s.
Proof.
  intros H. apply Forall_forall. intros c Hin.
  destruct (spaceByte c) eqn:Hc; [done|].
  pose proof (TrimSpace_keeps c s Hin Hc) as Hk. rewrite H in Hk.
  by apply elem_of_nil in Hk.
Qed.

Lemma TrimLeftSpace_length (s : str) : length (TrimLeftSpace s) ≤ length s.
Proof.
  destruct (TrimLeftSpace_decomp s) as (pre & E & _).
  rewrite E at 2. rewrite length_app. lia.
Qed.

Lemma trimRevSpace_length (r : str) : length (trimRevSpace r) ≤ length r.
Proof.
  destruct (trimRevSpace_decomp r) as (pre & E & _).
  rewrite E at 2. rewrite length_app. lia.
Qed.

(** A string that starts with a byte of no space rune is not trimmed. *)
Lemma TrimLeftSpace_id (c : ascii) (s : str) :
  spaceByte c = false → TrimLeftSpace (c :: s) = c :: s.
Proof.
  intros Hc. simpl.
  destruct (asciiSpace c) eqn:H1.
  { unfold spaceByte in Hc. by rewrite H1 in Hc. }
  destruct s as [|c2 s2]; [done|].
  destruct (space2 c c2) eqn:H2.
  { apply space2_bytes in H2 as [? ?]. congruence. }
  destruct s2 as [|c3 s3]; [done|].
  destruct (space3 c c2 c3) eqn:H3; [|done].
  apply space3_bytes in H3 as (? & ? & ?). congruence.
Qed.

Lemma trimRevSpace_id (c : ascii) (r : str) :
  spaceByte c = false → trimRevSpace (c :: r) = c :: r.
Proof.
  intros Hc. simpl.
  destruct (asciiSpace c) eqn:H1.
  { unfold spaceByte in Hc. by rewrite H1 in Hc. }
  destruct r as [|c2 r2]; [done|].
  destruct (space2 c2 c) eqn:H2.
  { apply space2_bytes in H2 as [? ?]. congruence. }
  destruct r2 as [|c3 r3]; [done|].
  destruct (space3 c3 c2 c) eqn:H3; [|done].
  apply space3_bytes in H3 as (? & ? & ?). congruence.
Qed.

Lemma TrimSpace_id (c d : ascii) (s : str) :
  spaceByte c = false → spaceByte d = false →
  TrimSpace (c :: s ++ [d]) = c :: s ++ [d].
Proof.
  intros Hc Hd. unfold TrimSpace, TrimRightSpace.
  rewrite TrimLeftSpace_id by done.
  change (c :: s ++ [d]) with ((c :: s) ++ [d]).
  rewrite (reverse_app (c :: s) [d]).
  change (reverse [d] ++ reverse (c :: s)) with (d :: reverse (c :: s)).
  rewrite trimRevSpace_id by done.
  change (d :: reverse (c :: s)) with (reverse [d] ++ reverse (c :: s)).
  rewrite <- reverse_app, reverse_involutive. done.
Qed.

Lemma TrimSpace_id1 (c : ascii) :
  spaceByte c = false → TrimSpace [c] = [c].
Proof.
  intros Hc. unfold TrimSpace, TrimRightSpace.
  rewrite TrimLeftSpace_id by done.
  change (reverse [c]) with [c]. by rewrite trimRevSpace_id.
Qed.

(** Trimming is idempotent. *)
Lemma TrimLeftSpace_idem (s : str) :
  TrimLeftSpace (TrimLeftSpace s) = TrimLeftSpace s.
Proof.
  induction s as [s IH] using shorter_ind.
  destruct s as [|c1 s1]; [done|].
  destruct (asciiSpace c1) eqn:H1.
  { simpl. rewrite H1. apply IH. simpl; lia. }
  destruct s1 as [|c2 s2]; [by simpl; rewrite H1; simpl; rewrite H1|].
  destruct (space2 c1 c2) eqn:H2.
  { simpl. rewrite H1, H2. apply IH. simpl; lia. }
  destruct s2 as [|c3 s3].
  { simpl. rewrite H1, H2. simpl. by rewrite H1, H2. }
  destruct (space3 c1 c2 c3) eqn:H3.
  { simpl. rewrite H1, H2, H3. apply IH. simpl; lia. }
  simpl. rewrite H1, H2, H3. simpl. by rewrite H1, H2, H3.
Qed.

Lemma trimRevSpace_idem (r : str) :
  trimRevSpace (trimRevSpace r) = trimRevSpace r.
Proof.
  induction r as [r IH] using shorter_ind.
  destruct r as [|c1 r1]; [done|].
  destruct (asciiSpace c1) eqn:H1.
  { simpl. rewrite H1. apply IH. simpl; lia. }
  destruct r1 as [|c2 r2]; [by simpl; rewrite H1; simpl; rewrite H1|].
  destruct (space2 c2 c1) eqn:H2.
  { simpl. rewrite H1, H2. apply IH. simpl; lia. }
  destruct r2 as [|c3 r3].
  { simpl. rewrite H1, H2. simpl. by rewrite H1, H2. }
  destruct (space3 c3 c2 c1) eqn:H3.
  { simpl. rewrite H1, H2, H3. apply IH. simpl; lia. }
  simpl. rewrite H1, H2, H3. simpl. by rewrite H1, H2, H3.
Qed.

(** A prefix of a string without leading space has no leading space. *)
Lemma TrimLeftSpace_fix_prefix (t u : str) :
  TrimLeftSpace t = t → u `prefix_of` t → TrimLeftSpace u = u.
Proof.
  intros Ht [w ->].
  destruct u as [|c1 u1]; [done|].
  simpl in Ht |- *.
  destruct (asciiSpace c1) eqn:H1.
  { pose proof (TrimLeftSpace_length (u1 ++ w)) as Hl.
    rewrite Ht in Hl. simpl in Hl. lia. }
  destruct u1 as [|c2 u2]; [done|]. simpl in Ht.
  destruct (space2 c1 c2) eqn:H2.
  { pose proof (TrimLeftSpace_length (u2 ++ w)) as Hl.
    rewrite Ht in Hl. simpl in Hl. lia. }
  destruct u2 as [|c3 u3]; [done|]. simpl in Ht.
  destruct (space3 c1 c2 c3) eqn:H3; [|done].
  pose proof (TrimLeftSpace_length (u3 ++ w)) as Hl.
  rewrite Ht in Hl. simpl in Hl. lia.
Qed.

Lemma TrimSpace_idem (s : str) : TrimSpace (TrimSpace s) = TrimSpace s.
Proof.
  unfold TrimSpace at 2 3. set (t := TrimLeftSpace s).
  assert (TrimLeftSpace t = t) as Ht by apply TrimLeftSpace_idem.
  assert (TrimRightSpace t `prefix_of` t) as Hp.
  { unfold TrimRightSpace.
    destruct (trimRevSpace_decomp (reverse t)) as (pre & E & _).
    exists (reverse pre).
    rewrite <- reverse_app, <- E. by rewrite reverse_involutive. }
  unfold TrimSpace. rewrite (TrimLeftSpace_fix_prefix t _ Ht Hp).
  unfold TrimRightSpace. rewrite reverse_involutive.
  by rewrite trimRevSpace_idem.
Qed.

End strings_facts.

(** ** Facts about matching and replacing *)
Section regexp_facts.
Import strings regexp.

Lemma matchAt_intro (r : regex) (m rest : str) :
  rmatch r (m ++ rest) Some = Some rest → matchAt r (m ++ rest) = Some (length m).
Proof.
  intros H. unfold matchAt. rewrite H. simpl. f_equal.
  rewrite length_app. lia.
Qed.

Lemma matchAt_none (r : regex) (s : str) :
  rmatch r s Some = None → matchAt r s = None.
Proof. intros H. unfold matchAt. by rewrite H. Qed.

(** A greedy [p*] or [p+] takes all of a run of [p] bytes when what
    follows the pattern accepts the rest. *)
Lemma starK_greedy (p : ascii → bool) (run rest out : str)
    (k : str → option str) :
  Forall (λ c, p c = true) run →
  match rest with c :: _ => p c = false | [] => True end →
  k rest = Some out →
  starK p (run ++ rest) k = Some out.
Proof.
  intros Hrun Hrest Hk.
  induction Hrun as [|c run Hc _ IH]; simpl.
  - destruct rest as [|c rest']; [done|]. simpl. by rewrite Hrest.
  - by rewrite Hc, IH.
Qed.

Lemma findAll_skip (r : regex) (a b : str) :
  findAll r (a ++ b) (length a) = findAll r b 0.
Proof. induction a as [|c a IH]; [done|]. simpl. apply IH. Qed.

Lemma findAll_hit (r : regex) (m rest : str) :
  m ≠ [] → matchAt r (m ++ rest) = Some (length m) →
  findAll r (m ++ rest) 0 = Hit m :: findAll r rest 0.
Proof.
  intros Hm H. destruct m as [|c m]; [done|].
  simpl in *. rewrite H. rewrite findAll_skip.
  by rewrite take_app_length.
Qed.

Lemma findAll_keep (r : regex) (c : ascii) (s : str) :
  matchAt r (c :: s) = None → findAll r (c :: s) 0 = Keep c :: findAll r s 0.
Proof. intros H. simpl. by rewrite H. Qed.

Lemma Replace_hit (re : Regexp) (m rest : str) (repl : str → str) :
  m ≠ [] → matchAt (body re) (m ++ rest) = Some (length m) →
  ReplaceAllStringFunc re (m ++ rest) repl
  = repl m ++ ReplaceAllStringFunc re rest repl.
Proof. intros Hm H. unfold ReplaceAllStringFunc. by rewrite findAll_hit. Qed.

Lemma Replace_keep (re : Regexp) (c : ascii) (s : str) (repl : str → str) :
  matchAt (body re) (c :: s) = None →
  ReplaceAllStringFunc re (c :: s) repl = c :: ReplaceAllStringFunc re s repl.
Proof. intros H. unfold ReplaceAllStringFunc. by rewrite findAll_keep. Qed.

Lemma ReplaceP_hit (re : Regexp) (m rest : str) (repl : str → option str) :
  m ≠ [] → matchAt (body re) (m ++ rest) = Some (length m) →
  ReplaceAllStringFuncP re (m ++ rest) repl
  = match repl m with
    | Some v => (λ out, v ++ out) <$> ReplaceAllStringFuncP re rest repl
    | None => None
    end.
Proof.
  intros Hm H. unfold ReplaceAllStringFuncP. rewrite findAll_hit by done.
  simpl. destruct (repl m); [|done]. simpl.
  by destruct (mapM _ (findAll (body re) rest 0)).
Qed.

Lemma ReplaceP_keep (re : Regexp) (c : ascii) (s : str)
    (repl : str → option str) :
  matchAt (body re) (c :: s) = None →
  ReplaceAllStringFuncP re (c :: s) repl
  = (λ out, c :: out) <$> ReplaceAllStringFuncP re s repl.
Proof.
  intros H. unfold ReplaceAllStringFuncP. rewrite findAll_keep by done.
  simpl. by destruct (mapM _ (findAll (body re) s 0)).
Qed.

Lemma ReplaceP_nil (re : Regexp) (repl : str → option str) :
  ReplaceAllStringFuncP re [] repl = Some [].
Proof. done. Qed.

Lemma matchAt_le (r : regex) (s : str) (m : nat) :
  matchAt r s = Some m → m ≤ length s.
Proof.
  unfold matchAt. destruct (rmatch r s Some); intros [= <-]. lia.
Qed.

(** When what follows always matches, [p*] is greedy without backtracking. *)
Lemma starK_total_greedy (p : ascii → bool) (s : str) (k : str → option str) :
  (∀ t, is_Some (k t)) → starK p s k = k (skipClass p s).
Proof.
  intros Hk. induction s as [|c s IH]; simpl; [done|].
  destruct (p c); [|done]. rewrite IH. by destruct (Hk (skipClass p s)) as [? ->].
Qed.

Lemma rmatch_Seq (r1 r2 : regex) (s : str) (k : str → option str) :
  rmatch (Seq r1 r2) s k = rmatch r1 s (λ s', rmatch r2 s' k).
Proof. done. Qed.

(** An optional part in front of a pattern that always matches is taken
    whenever it is there. *)
Lemma rmatch_Opt_Lit (c : ascii) (s : str) (k : str → option str) :
  (∀ t, is_Some (k t)) → rmatch (Opt (Lit c)) s k = k (dropByte c s).
Proof.
  intros Hk. destruct s as [|d s]; simpl; [done|].
  destruct (eqb d c); [|done]. by destruct (Hk s) as [? ->].
Qed.

Lemma rmatch_Opt_PlusC (p : ascii → bool) (s : str) (k : str → option str) :
  (∀ t, is_Some (k t)) → rmatch (Opt (PlusC p)) s k = k (skipClass p s).
Proof.
  intros Hk. destruct s as [|d s]; simpl; [done|].
  destruct (p d); [|done]. rewrite starK_total_greedy by done.
  by destruct (Hk (skipClass p s)) as [? ->].
Qed.

Lemma mapM_option_app {A B : Type} (f : A → option B) (l1 l2 : list A) :
  mapM f (l1 ++ l2)
  = match mapM f l1, mapM f l2 with
    | Some k1, Some k2 => Some (k1 ++ k2)
    | _, _ => None
    end.
Proof.
  induction l1 as [|x l1 IH]; simpl.
  - by destruct (mapM f l2).
  - destruct (f x); simpl; [|done]. rewrite IH.
    destruct (mapM f l1), (mapM f l2); done.
Qed.

End regexp_facts.

(** Evaluate the byte tests whose arguments are known. *)
Ltac eval_bytes :=
  repeat match goal with
    | |- context [eqb ?a ?b] =>
        let v := eval vm_compute in (eqb a b) in
        match v with
        | true => change (eqb a b) with true
        | false => change (eqb a b) with false
        end
    end; cbv iota.

(** ** Facts about the parser *)
Section dotenv_facts.
Import strings regexp dotenv.

Implicit Types (envVars : gmap str str) (name rest s : str).

Lemma braceRef_length name : length (braceRef name) = 3 + length name.
Proof. unfold braceRef. simpl. rewrite length_app. simpl. lia. Qed.

Lemma braceRef_match name rest :
  isName name →
  matchAt (body substituteVarRegex) (braceRef name ++ rest)
  = Some (length (braceRef name)).
Proof.
  intros Hname. apply matchAt_intro.
  unfold braceRef, substituteVarRegex. simpl. eval_bytes.
  rewrite <- app_assoc. simpl.
  destruct Hname as [|c name Hc Hname]; simpl.
  - by eval_bytes.
  - rewrite Hc.
    erewrite starK_greedy; [done|done|simpl; by vm_compute|].
    simpl. by eval_bytes.
Qed.

(** [match[2:len(match)-1]] on a reference in braces is the name. *)
Lemma braceRef_slice name :
  slice (braceRef name) 2 (Z.of_nat (length (braceRef name)) - 1) = Some name.
Proof.
  unfold slice. rewrite braceRef_length.
  rewrite bool_decide_eq_true_2 by lia. f_equal.
  replace (Z.to_nat (Z.of_nat (3 + length name) - 1 - 2)) with (length name) by lia.
  change (Z.to_nat 2) with 2. unfold braceRef. simpl.
  rewrite drop_0. by rewrite take_app_length.
Qed.

(** A reference in braces is replaced by the value bound to its name, or
    by nothing; the text after it is substituted on its own. *)
Lemma substitute_braceRef name rest envVars :
  isName name →
  substituteVariables (braceRef name ++ rest) envVars
  = (λ out, default [] (envVars !! name) ++ out)
      <$> substituteVariables rest envVars.
Proof.
  intros Hname. unfold substituteVariables.
  rewrite ReplaceP_hit; [|done|by apply braceRef_match].
  unfold substituteVariables_func.
  rewrite braceRef_slice. by destruct (envVars !! name).
Qed.

(** A byte that starts no match is copied. *)
Lemma substitute_byte (c : ascii) s envVars :
  c ≠ dollar → (c = bslash → head s ≠ Some dollar) →
  substituteVariables (c :: s) envVars
  = (λ out, c :: out) <$> substituteVariables s envVars.
Proof.
  intros Hc Hs. unfold substituteVariables.
  apply ReplaceP_keep, matchAt_none.
  unfold substituteVarRegex. simpl.
  rewrite (proj2 (eqb_neq c dollar)) by done.
  destruct (eqb c bslash) eqn:Hb; [|done].
  apply eqb_eq in Hb. specialize (Hs Hb).
  destruct s as [|d s]; [done|].
  rewrite (proj2 (eqb_neq d dollar)); [done|]. intros ->. by apply Hs.
Qed.

(** Text without [$] that does not end in a backslash is copied. *)
Lemma substitute_plain (pre : str) rest envVars :
  dollar ∉ pre → last pre ≠ Some bslash →
  substituteVariables (pre ++ rest) envVars
  = (λ out, pre ++ out) <$> substituteVariables rest envVars.
Proof.
  induction pre as [|c pre IH]; intros Hd Hl.
  - simpl. by destruct (substituteVariables rest envVars).
  - apply not_elem_of_cons in Hd as [Hc Hd]. simpl.
    rewrite substitute_byte; [|done|].
    + rewrite IH; [|done|].
      * by destruct (substituteVariables rest envVars).
      * destruct pre; [done|]. by rewrite last_cons_cons in Hl.
    + intros ->. destruct pre as [|d pre]; [done|].
      simpl. intros [= ->]. apply Hd. by left.
Qed.

Lemma substitute_plain_all (s : str) envVars :
  dollar ∉ s → substituteVariables s envVars = Some s.
Proof.
  induction s as [|c s IH]; intros Hd; [done|].
  apply not_elem_of_cons in Hd as [Hc Hd].
  rewrite substitute_byte; [by rewrite IH|done|].
  intros _. destruct s as [|d s]; [done|]. simpl.
  intros [= ->]. apply Hd. by left.
Qed.

(** The same reference behind a backslash is one match, backslash
    included, and the callback looks up [match[2:len(match)-1]] again,
    which now is the brace followed by the name. *)
Lemma escaped_braceRef_match name rest :
  isName name →
  matchAt (body substituteVarRegex) ((bslash :: braceRef name) ++ rest)
  = Some (length (bslash :: braceRef name)).
Proof.
  intros Hname. apply matchAt_intro.
  unfold braceRef, substituteVarRegex. simpl. eval_bytes.
  rewrite <- app_assoc. simpl.
  destruct Hname as [|c name Hc Hname]; simpl.
  - by eval_bytes.
  - rewrite Hc.
    erewrite starK_greedy; [done|done|simpl; by vm_compute|].
    simpl. by eval_bytes.
Qed.

Lemma escaped_braceRef_slice name :
  slice (bslash :: braceRef name) 2
        (Z.of_nat (length (bslash :: braceRef name)) - 1)
  = Some ("{" ++ name).
Proof.
  unfold slice. cbn [length]. rewrite braceRef_length.
  rewrite bool_decide_eq_true_2 by lia. f_equal.
  replace (Z.to_nat (Z.of_nat (S (3 + length name)) - 1 - 2))
    with (S (length name)) by lia.
  change (Z.to_nat 2) with 2. unfold braceRef. simpl.
  by rewrite take_app_length.
Qed.

Lemma substitute_escaped_braceRef name rest envVars :
  isName name →
  substituteVariables (bslash :: braceRef name ++ rest) envVars
  = (λ out, default [] (envVars !! ("{" ++ name : str)) ++ out)
      <$> substituteVariables rest envVars.
Proof.
  intros Hname. unfold substituteVariables.
  change (bslash :: braceRef name ++ rest) with ((bslash :: braceRef name) ++ rest).
  rewrite ReplaceP_hit; [|done|by apply escaped_braceRef_match].
  unfold substituteVariables_func.
  rewrite escaped_braceRef_slice.
  by destruct (envVars !! _).
Qed.

(** *** Where the matches of [substituteVarRegex] lie *)

Lemma substituteVarRegex_rmatch (s : str) :
  rmatch (body substituteVarRegex) s Some
  = match s with
    | c :: s1 =>
        if eqb c bslash then
          match s1 with
          | d :: s2 => if eqb d dollar then Some (afterDollar s2) else None
          | [] => None
          end
        else if eqb c dollar then Some (afterDollar s1)
        else None
    | [] => None
    end.
Proof.
  set (r3 := Opt (Lit "}")).
  set (r2 := Seq (Opt (PlusC upperNum_)) r3).
  set (r1 := Seq (Opt (Lit "{")) r2).
  set (r0 := Seq (Opt (Lit "(")) r1).
  assert (∀ t, rmatch r3 t Some = Some (dropByte "}" t)) as H3.
  { intros t. unfold r3. by rewrite rmatch_Opt_Lit by (intros; by eexists). }
  assert (∀ t, rmatch r2 t Some = Some (dropByte "}" (skipClass upperNum_ t))) as H2.
  { intros t. unfold r2. rewrite rmatch_Seq.
    rewrite rmatch_Opt_PlusC by (intros; rewrite H3; by eexists). apply H3. }
  assert (∀ t, rmatch r1 t Some
               = Some (dropByte "}" (skipClass upperNum_ (dropByte "{" t)))) as H1.
  { intros t. unfold r1. rewrite rmatch_Seq.
    rewrite rmatch_Opt_Lit by (intros; rewrite H2; by eexists). apply H2. }
  assert (∀ t, rmatch r0 t Some = Some (afterDollar t)) as H0.
  { intros t. unfold r0. rewrite rmatch_Seq.
    rewrite rmatch_Opt_Lit by (intros; rewrite H1; by eexists). apply H1. }
  change (body substituteVarRegex) with (Seq (Opt (Lit bslash)) (Seq (Lit dollar) r0)).
  destruct s as [|c s1]; [done|]. cbn [rmatch].
  destruct (eqb c bslash) eqn:Hc.
  - apply eqb_eq in Hc as ->. change (eqb bslash dollar) with false. cbv iota.
    destruct s1 as [|d s2]; [done|].
    destruct (eqb d dollar); [|done]. by rewrite H0.
  - destruct (eqb c dollar); [|done]. by rewrite H0.
Qed.

(** No match runs over a [$] or a backslash: the matches in front of
    such a byte are those of the text in front of it alone, unless that
    text ends in a backslash and the byte is the [$]. *)
Lemma dropByte_app (c b : ascii) (t tail : str) :
  c ≠ b → dropByte c (t ++ b :: tail) = dropByte c t ++ b :: tail.
Proof.
  intros Hc. destruct t as [|d t]; simpl.
  - by rewrite (proj2 (eqb_neq b c)).
  - by destruct (eqb d c).
Qed.

Lemma skipClass_app (p : ascii → bool) (b : ascii) (t tail : str) :
  p b = false → skipClass p (t ++ b :: tail) = skipClass p t ++ b :: tail.
Proof.
  intros Hp. induction t as [|d t IH]; simpl.
  - by rewrite Hp.
  - by destruct (p d).
Qed.

Lemma afterDollar_app (b : ascii) (t tail : str) :
  startsToken b →
  afterDollar (t ++ b :: tail) = afterDollar t ++ b :: tail.
Proof.
  intros [-> | ->]; unfold afterDollar;
    by rewrite !dropByte_app, skipClass_app, dropByte_app.
Qed.

Lemma substituteVarRegex_matchAt_app (c b : ascii) (t tail : str) :
  startsToken b → (c :: t = [bslash] → b = bslash) →
  matchAt (body substituteVarRegex) ((c :: t) ++ b :: tail)
  = matchAt (body substituteVarRegex) (c :: t).
Proof.
  intros Hb Hne. unfold matchAt. rewrite !substituteVarRegex_rmatch. simpl.
  destruct (eqb c bslash) eqn:Hc.
  - apply eqb_eq in Hc as ->. destruct t as [|d t]; simpl.
    { by rewrite Hne. }
    destruct (eqb d dollar); [|done]. rewrite afterDollar_app by done.
    simpl. f_equal. rewrite !length_app. simpl. lia.
  - destruct (eqb c dollar); [|done]. rewrite afterDollar_app by done.
    simpl. f_equal. rewrite !length_app. simpl. lia.
Qed.

Lemma findAll_before_token (pre tail : str) (b : ascii) (skip : nat) :
  startsToken b → (last pre = Some bslash → b = bslash) → skip ≤ length pre →
  findAll (body substituteVarRegex) (pre ++ b :: tail) skip
  = findAll (body substituteVarRegex) pre skip
    ++ findAll (body substituteVarRegex) (b :: tail) 0.
Proof.
  intros Hb. revert skip. induction pre as [|c pre IH]; intros skip Hlast Hskip.
  { simpl in Hskip. by replace skip with 0 by lia. }
  assert (last pre = Some bslash → b = bslash) as Hlast'.
  { destruct pre; [done|]. by rewrite last_cons_cons in Hlast. }
  change ((c :: pre) ++ b :: tail) with (c :: (pre ++ b :: tail)).
  cbn [findAll]. destruct skip as [|skip].
  - change (c :: (pre ++ b :: tail)) with ((c :: pre) ++ b :: tail).
    rewrite substituteVarRegex_matchAt_app; [|done|].
    2:{ intros [= -> ->]. by apply Hlast. }
    destruct (matchAt (body substituteVarRegex) (c :: pre)) as [[|m]|] eqn:E.
    + simpl. by rewrite IH by (done || lia).
    + apply matchAt_le in E. simpl in E.
      rewrite IH by (done || lia).
      by rewrite take_app_le by (simpl; lia).
    + simpl. by rewrite IH by (done || lia).
  - simpl in Hskip. apply IH; [done|lia].
Qed.

Lemma substitute_before_token (pre tail : str) (b : ascii) envVars :
  startsToken b → (last pre = Some bslash → b = bslash) →
  substituteVariables (pre ++ b :: tail) envVars
  = match substituteVariables pre envVars,
          substituteVariables (b :: tail) envVars with
    | Some before, Some after => Some (before ++ after)
    | _, _ => None
    end.
Proof.
  intros Hb Hlast. unfold substituteVariables, ReplaceAllStringFuncP.
  rewrite findAll_before_token by (done || lia).
  rewrite mapM_option_app.
  destruct (mapM _ (findAll _ pre 0)), (mapM _ (findAll _ (b :: tail) 0));
    simpl; try done.
  by rewrite concat_app.
Qed.

(** The escape decoder leaves a backslash in front of [$] where it is:
    the first pass has no case for [$], the second excludes it. *)
Lemma parseEscape_escaped_dollar s :
  parseEscape (bslash :: dollar :: s) = bslash :: dollar :: parseEscape s.
Proof.
  unfold parseEscape.
  change (bslash :: dollar :: s) with ([bslash; dollar] ++ s).
  rewrite Replace_hit; [|done|by apply matchAt_intro].
  change (parseEscape_func [bslash; dollar]) with [bslash; dollar].
  simpl.
  rewrite Replace_keep by by apply matchAt_none.
  rewrite Replace_keep by by apply matchAt_none.
  done.
Qed.

(** [closingQuote] in terms of positions: with [val = prev :: s], the
    closing quote is at the least index [i >= 1] such that [val[i]] is the
    quote and [val[i-1]] is no backslash, the test of the loop. *)
Lemma closingQuote_Some (q prev : ascii) (s : str) (j : nat) :
  closingQuote q prev s = Some j
  ↔ (prev :: s) !! S j = Some q
    ∧ (prev :: s) !! j ≠ Some bslash
    ∧ ∀ i, i < j →
        ¬ ((prev :: s) !! S i = Some q ∧ (prev :: s) !! i ≠ Some bslash).
Proof.
  revert prev j. induction s as [|c s IH]; intros prev j.
  { simpl. split; [done|]. by intros [? _]. }
  cbn [closingQuote].
  destruct (eqb c q && negb (eqb prev bslash)) eqn:E.
  - apply andb_true_iff in E as [Hc Hp].
    apply eqb_eq in Hc as ->. apply negb_true_iff, eqb_neq in Hp.
    split.
    + intros [= <-]. split; [done|]. split; [simpl; congruence|]. intros; lia.
    + intros (_ & _ & Hmin). destruct j as [|j]; [done|].
      exfalso. apply (Hmin 0); [lia|]. split; [done|simpl; congruence].
  - assert (¬ (c = q ∧ prev ≠ bslash)) as Hno.
    { intros [-> Hp]. apply andb_false_iff in E as [E|E].
      - by rewrite eqb_refl in E.
      - apply negb_false_iff, eqb_eq in E. done. }
    destruct j as [|j].
    + split.
      * by destruct (closingQuote q c s).
      * intros (Hq & Hp & _). simpl in Hq, Hp. exfalso. apply Hno.
        split; congruence.
    + specialize (IH c j).
      assert (S <$> closingQuote q c s = Some (S j)
              ↔ closingQuote q c s = Some j) as ->.
      { destruct (closingQuote q c s); simpl; split; congruence. }
      rewrite IH. clear IH.
      change ((prev :: c :: s) !! S (S j)) with ((c :: s) !! S j).
      change ((prev :: c :: s) !! S j) with ((c :: s) !! j).
      split; intros (Hq & Hp & Hmin); (split; [done|]); (split; [done|]).
      * intros [|i] Hi.
        -- simpl. intros [[= ->] Hp']. apply Hno. split; congruence.
        -- apply (Hmin i). lia.
      * intros i Hi. apply (Hmin (S i)). lia.
Qed.


Lemma quoteLoop_done (n i : nat) (prefix : ascii) (val remaining : str) :
  length val ≤ i → quoteLoop n i prefix val remaining = (val, remaining).
Proof.
  intros Hi. destruct n as [|n]; [done|]. simpl.
  by rewrite bool_decide_eq_false_2 by lia.
Qed.

Lemma quoteLoop_scan (prefix : ascii) (s : str) :
  ∀ (pre : str) (prev : ascii) (n : nat) (remaining : str),
  length s ≤ n →
  quoteLoop n (S (length pre)) prefix (pre ++ prev :: s) remaining
  = match closingQuote prefix prev s with
    | Some j =>
        (take (length pre + j) (drop 1 (pre ++ prev :: s)),
         TrimSpace (drop (S (S (length pre + j))) (pre ++ prev :: s)))
    | None => (pre ++ prev :: s, remaining)
    end.
Proof.
  induction s as [|c s IH]; intros pre prev n remaining Hn.
  { simpl. apply quoteLoop_done. rewrite length_app. simpl. lia. }
  destruct n as [|n]; [simpl in Hn; lia|].
  cbn [quoteLoop closingQuote].
  rewrite bool_decide_eq_true_2 by (rewrite length_app; simpl; lia).
  assert ((pre ++ prev :: c :: s) !! S (length pre) = Some c) as ->.
  { rewrite lookup_app_r by lia.
    by replace (S (length pre) - length pre) with 1 by lia. }
  assert ((pre ++ prev :: c :: s) !! (S (length pre) - 1) = Some prev) as ->.
  { rewrite lookup_app_r by lia.
    by replace (S (length pre) - 1 - length pre) with 0 by lia. }
  rewrite (bool_decide_eq_true_2 (0 < S (length pre))) by lia.
  assert (bool_decide (Some c = Some prefix) = eqb c prefix) as ->.
  { unfold eqb. apply bool_decide_ext. split; congruence. }
  assert (bool_decide (Some prev = Some bslash) = eqb prev bslash) as ->.
  { unfold eqb. apply bool_decide_ext. split; congruence. }
  simpl (true && _).
  destruct (eqb c prefix && negb (eqb prev bslash)).
  - rewrite quoteLoop_done.
    + f_equal; [f_equal; lia|]. do 2 f_equal. lia.
    + rewrite length_take, length_drop, length_app. simpl. lia.
  - specialize (IH (pre ++ [prev]) c n remaining).
    rewrite <- (app_assoc pre [prev]) in IH. simpl in IH.
    rewrite length_app in IH. simpl in IH.
    replace (length pre + 1) with (S (length pre)) in IH by lia.
    rewrite IH by (simpl in Hn; lia).
    destruct (closingQuote prefix c s) as [j|]; [|done]. simpl.
    f_equal; [f_equal; lia|]. do 2 f_equal. lia.
Qed.

(** The loop of the quoted branch finds the closing quote. *)
Lemma quoteLoop_spec (prefix : ascii) (body : str) :
  quoteLoop (length (prefix :: body)) 1 prefix (prefix :: body) []
  = match closingQuote prefix prefix body with
    | Some j => (take j body, TrimSpace (drop (S j) body))
    | None => (prefix :: body, [])
    end.
Proof.
  rewrite (quoteLoop_scan prefix body [] prefix) by (simpl; lia).
  destruct (closingQuote prefix prefix body); [|done]. simpl.
  by rewrite drop_0.
Qed.

(** *** Bytes of keys *)

Lemma alnum_not_space (c : ascii) : alnum_ c = true → spaceByte c = false.
Proof. destruct c as [[] [] [] [] [] [] [] []]; vm_compute; congruence. Qed.

Lemma letter_alnum (c : ascii) : letter_ c = true → alnum_ c = true.
Proof. destruct c as [[] [] [] [] [] [] [] []]; vm_compute; congruence. Qed.

(** [keyRegex] has no [$] at its end: it matches as soon as the first
    byte is a letter or an underscore. *)
Lemma starK_is_Some (p : ascii → bool) (s : str) (k : str → option str) :
  (∀ t, is_Some (k t)) → is_Some (starK p s k).
Proof.
  intros Hk. induction s as [|c s IH]; simpl; [done|].
  destruct (p c); [|done].
  by destruct (starK p s k).
Qed.

Lemma keyRegex_first_byte (key : str) :
  MatchString keyRegex key = true
  ↔ ∃ c key', key = c :: key' ∧ letter_ c = true.
Proof.
  unfold MatchString, keyRegex, matchAt. simpl.
  rewrite bool_decide_eq_true, fmap_is_Some.
  destruct key as [|c key'].
  - split; [by intros []|]. by intros (? & ? & ? & _).
  - destruct (letter_ c) eqn:Hc.
    + split; [by eauto|]. intros _.
      apply starK_is_Some. intros t. by apply starK_is_Some.
    + split; [by intros []|]. intros (? & ? & ? & ?). simplify_eq. congruence.
Qed.

(** *** Equations of [extractValue], branch by branch *)

Lemma closingQuote_take (q : ascii) (body : str) (j : nat) :
  q ≠ bslash → closingQuote q q body = Some j →
  HasPrefix (take j body) [q] = false.
Proof.
  intros Hq H. destruct body as [|c body]; [done|]. simpl in H.
  rewrite (proj2 (eqb_neq q bslash)) in H by done.
  destruct (eqb c q) eqn:Hc; simpl in H.
  - simplify_eq. apply HasPrefix_nil_byte.
  - destruct (closingQuote q c body); simplify_eq/=.
    rewrite HasPrefix_byte. apply eqb_neq. apply eqb_neq in Hc. congruence.
Qed.

Lemma extractValue_squote (body : str) (scanner : list str) envVars :
  isMultiLine (squote :: body) = false →
  extractValue (squote :: body) scanner envVars
  = match closingQuote squote squote body with
    | None => Fail unterminatedQuote
    | Some j =>
        checkRemaining (TrimSpace (drop (S j) body)) (take j body, scanner)
    end.
Proof.
  intros Hml. unfold extractValue. rewrite Hml.
  change (s2l "'") with [squote].
  rewrite !HasPrefix_byte. eval_bytes. cbn [negb andb].
  rewrite quoteLoop_spec.
  destruct (closingQuote squote squote body) as [j|] eqn:Hj.
  - rewrite closingQuote_take by done.
    unfold checkRemaining. by rewrite TrimSpace_idem.
  - by rewrite HasPrefix_byte.
Qed.

Lemma extractValue_dquote (body : str) (scanner : list str) envVars :
  isMultiLine (dquote :: body) = false →
  extractValue (dquote :: body) scanner envVars
  = match closingQuote dquote dquote body with
    | None => Fail unterminatedQuote
    | Some j =>
        match substituteVariables (take j body) envVars with
        | None => Panic
        | Some v =>
            checkRemaining (TrimSpace (drop (S j) body)) (parseEscape v, scanner)
        end
    end.
Proof.
  intros Hml. unfold extractValue. rewrite Hml.
  change (s2l "'") with [squote].
  rewrite !HasPrefix_byte. eval_bytes. cbn [negb andb].
  rewrite quoteLoop_spec.
  destruct (closingQuote dquote dquote body) as [j|] eqn:Hj.
  - rewrite closingQuote_take by done.
    destruct (substituteVariables (take j body) envVars); [|done].
    unfold checkRemaining. simpl. by rewrite TrimSpace_idem.
  - by rewrite HasPrefix_byte.
Qed.

Lemma extractValue_unquoted (val : str) (scanner : list str) envVars :
  head val ≠ Some squote → head val ≠ Some dquote →
  extractValue val scanner envVars
  = match substituteVariables
            (TrimSpace (default [] (head (Split val hash)))) envVars with
    | Some v => Return (parseEscape v, scanner)
    | None => Panic
    end.
Proof.
  intros Hs Hd. unfold extractValue. change (s2l "'") with [squote].
  destruct val as [|c val].
  - by rewrite !HasPrefix_nil_byte.
  - rewrite !HasPrefix_byte.
    rewrite (proj2 (eqb_neq squote c)) by (simpl in Hs; congruence).
    by rewrite (proj2 (eqb_neq dquote c)) by (simpl in Hd; congruence).
Qed.

Lemma extractValue_tripleD (t : str) (scanner : list str) envVars :
  extractValue (tripleD ++ t) scanner envVars
  = multiLineLoop tripleD [] scanner envVars.
Proof.
  unfold extractValue, isMultiLine, tripleD. change (s2l "'") with [squote].
  cbn [app]. rewrite !HasPrefix_cons, ?HasPrefix_nil. by eval_bytes.
Qed.

Lemma extractValue_tripleS (t : str) (scanner : list str) envVars :
  extractValue (tripleS ++ t) scanner envVars
  = multiLineLoop tripleS [] scanner envVars.
Proof.
  unfold extractValue, isMultiLine, tripleS.
  change (s2l "'") with [squote]. change (s2l "'''") with [squote; squote; squote].
  cbn [app]. rewrite !HasPrefix_cons, ?HasPrefix_nil. by eval_bytes.
Qed.

Lemma TrimSuffix_absent (s suffix : str) :
  HasSuffix s suffix = false → TrimSuffix s suffix = s.
Proof. intros H. unfold TrimSuffix. by rewrite H. Qed.

(** The triple-single-quoted loop returns at the first line that ends
    with the marker.  Nothing of that line enters the value. *)
Lemma multiLineLoop_tripleS (acc : str) (before : list str) (closing : str)
    (after : list str) envVars :
  Forall (λ line, HasSuffix line tripleS = false) before →
  HasSuffix closing tripleS = true →
  multiLineLoop tripleS acc (before ++ closing :: after) envVars
  = Return (TrimSuffix (acc ++ decodedLines before) [LF], after).
Proof.
  intros Hb Hc. revert acc.
  induction Hb as [|line before Hline _ IH]; intros acc; simpl.
  - rewrite Hc. unfold decodedLines. simpl. by rewrite app_nil_r.
  - rewrite Hline. rewrite !(TrimSuffix_absent line) by done.
    change (bool_decide (tripleS = [dquote; dquote; dquote])) with false.
    cbv iota. rewrite IH. unfold decodedLines. simpl.
    by rewrite <- !app_assoc.
Qed.

(** The same for the triple-double-quoted form, whose lines are
    substituted first. *)
Lemma multiLineLoop_tripleD (acc : str) (before substituted : list str)
    (closing : str) (after : list str) envVars :
  Forall (λ line, HasSuffix line tripleD = false) before →
  Forall2 (λ line out, substituteVariables line envVars = Some out)
          before substituted →
  HasSuffix closing tripleD = true →
  multiLineLoop tripleD acc (before ++ closing :: after) envVars
  = Return (TrimSuffix (acc ++ decodedLines substituted) [LF], after).
Proof.
  intros Hb Hs Hc. revert acc.
  induction Hs as [|line out before substituted Hout _ IH];
    intros acc; simpl.
  - rewrite Hc. unfold decodedLines. simpl. by rewrite app_nil_r.
  - apply Forall_cons in Hb as [Hline Hb].
    rewrite Hline. rewrite !(TrimSuffix_absent line) by done.
    change (bool_decide (tripleD = [dquote; dquote; dquote])) with true.
    cbv iota. rewrite Hout. rewrite IH by done. unfold decodedLines. simpl.
    by rewrite <- !app_assoc.
Qed.

(** Without a line that ends with the marker the loop runs to the end of
    the input and reports it, unless a substitution panics on the way. *)
Lemma multiLineLoop_unterminated_tripleS (acc : str) (scanner : list str) envVars :
  Forall (λ line, HasSuffix line tripleS = false) scanner →
  multiLineLoop tripleS acc scanner envVars = Fail unterminatedMultiLine.
Proof.
  intros Hb. revert acc.
  induction Hb as [|line scanner Hline _ IH]; intros acc; simpl; [done|].
  rewrite Hline.
  change (bool_decide (tripleS = [dquote; dquote; dquote])) with false.
  cbv iota. apply IH.
Qed.

Lemma multiLineLoop_unterminated_tripleD (acc : str) (scanner : list str) envVars :
  Forall (λ line, HasSuffix line tripleD = false) scanner →
  Forall (λ line, is_Some (substituteVariables line envVars)) scanner →
  multiLineLoop tripleD acc scanner envVars = Fail unterminatedMultiLine.
Proof.
  intros Hb Hs. revert acc.
  induction Hb as [|line scanner Hline _ IH]; intros acc; simpl; [done|].
  apply Forall_cons in Hs as [[out Hout] Hs].
  rewrite Hline. rewrite !(TrimSuffix_absent line) by done.
  change (bool_decide (tripleD = [dquote; dquote; dquote])) with true.
  cbv iota. rewrite Hout. by apply IH.
Qed.

(** *** The scanner only moves forward *)

Lemma multiLineLoop_scanner (prefix acc : str) (scanner : list str) envVars
    (val : str) (scanner' : list str) :
  multiLineLoop prefix acc scanner envVars = Return (val, scanner') →
  length scanner' ≤ length scanner.
Proof.
  revert acc. induction scanner as [|line scanner IH]; intros acc; simpl; [done|].
  destruct (HasSuffix line prefix).
  - intros [= _ <-]. lia.
  - destruct (if bool_decide _ then _ else _); [|done].
    intros H. apply IH in H. lia.
Qed.

Lemma extractValue_scanner (val : str) (scanner : list str) envVars
    (out : str) (scanner' : list str) :
  extractValue val scanner envVars = Return (out, scanner') →
  length scanner' ≤ length scanner.
Proof.
  unfold extractValue.
  destruct (negb _ && negb _).
  { destruct (substituteVariables _ _); [|done]. by intros [= _ <-]. }
  destruct (isMultiLine val).
  { apply multiLineLoop_scanner. }
  destruct (if HasPrefix val [_] then _ else _) as [val' remaining].
  destruct (HasPrefix val' _); [done|].
  destruct (if eqb _ dquote then _ else _); [|done].
  destruct (negb _ && negb _); [done|]. by intros [= _ <-].
Qed.

(** *** The line loop *)

Lemma parseLoop_cons (n : nat) envVars (line : str) (scanner : list str) :
  parseLoop (S n) envVars (line :: scanner)
  = if HasPrefix line "#" || bool_decide (length (TrimSpace line) = 0)
    then parseLoop n envVars scanner
    else
      match SplitN (TrimPrefix line "export ") equals 2 with
      | [k; v] =>
          if negb (MatchString keyRegex (TrimSpace k))
          then Some (Fail (invalidKeyError (TrimSpace k)))
          else
            match extractValue v scanner envVars with
            | Fail err => Some (Fail (valueError (TrimSpace k) err))
            | Panic => Some Panic
            | Return (val, scanner') =>
                parseLoop n (<[TrimSpace k := val]> envVars) scanner'
            end
      | _ => Some (Fail inValidLine)
      end.
Proof. done. Qed.

(** Every iteration consumes a line: the bound of [Parse] is enough. *)
Lemma parseLoop_total (n : nat) :
  ∀ envVars (scanner : list str),
  length scanner < n → is_Some (parseLoop n envVars scanner).
Proof.
  induction n as [|n IH]; intros envVars scanner Hn; [lia|].
  destruct scanner as [|line scanner]; [by eexists|].
  rewrite parseLoop_cons. simpl in Hn.
  destruct (_ || _); [apply IH; lia|].
  destruct (SplitN _ _ _) as [|k [|v [|]]]; try by eexists.
  destruct (negb _); [by eexists|].
  destruct (extractValue v scanner envVars) as [[val scanner']| |] eqn:E;
    try by eexists.
  apply extractValue_scanner in E. apply IH. lia.
Qed.

Theorem Parse_total (envFile : list str) : is_Some (Parse envFile).
Proof. apply parseLoop_total. lia. Qed.

(** A larger bound does not change the result. *)
Lemma parseLoop_mono (n : nat) :
  ∀ envVars (scanner : list str) r,
  parseLoop n envVars scanner = Some r →
  parseLoop (S n) envVars scanner = Some r.
Proof.
  induction n as [|n IH]; intros envVars scanner r; [done|].
  destruct scanner as [|line scanner]; [done|].
  rewrite !parseLoop_cons.
  destruct (_ || _); [apply IH|].
  destruct (SplitN _ _ _) as [|k [|v [|]]]; try done.
  destruct (negb _); [done|].
  destruct (extractValue v scanner envVars) as [[val scanner']| |]; try done.
  apply IH.
Qed.

Lemma parseLoop_mono_le (n m : nat) envVars (scanner : list str) r :
  n ≤ m → parseLoop n envVars scanner = Some r →
  parseLoop m envVars scanner = Some r.
Proof.
  intros Hle H. induction Hle as [|m _ IH]; [done|]. by apply parseLoop_mono.
Qed.

Lemma isKey_alnum (key : str) : isKey key → Forall (λ c, alnum_ c = true) key.
Proof.
  intros (c & key' & -> & Hc & Hk). constructor; [|done]. by apply letter_alnum.
Qed.

Lemma prefix_before_sep (p k v : str) (sep : ascii) :
  sep ∉ p → p `prefix_of` k ++ sep :: v → p `prefix_of` k.
Proof.
  revert k. induction p as [|a p IH]; intros k Hp H; [apply prefix_nil|].
  apply not_elem_of_cons in Hp as [Ha Hp].
  destruct k as [|c k]; simpl in H.
  - apply prefix_cons_inv_1 in H. congruence.
  - pose proof (prefix_cons_inv_1 _ _ _ _ H) as ->.
    apply prefix_cons, IH; [done|]. by apply prefix_cons_inv_2 in H.
Qed.

(** A line that starts with a non-empty run of letters, digits and
    underscores followed by [=]: the run is the key, the text after the
    first [=] goes to [extractValue]. *)
Lemma parseLoop_key (n : nat) envVars (key v : str) (scanner : list str) :
  key ≠ [] → Forall (λ c, alnum_ c = true) key →
  parseLoop (S n) envVars ((key ++ equals :: v) :: scanner)
  = if MatchString keyRegex key then
      match extractValue v scanner envVars with
      | Fail err => Some (Fail (valueError key err))
      | Panic => Some Panic
      | Return (val, scanner') => parseLoop n (<[key := val]> envVars) scanner'
      end
    else Some (Fail (invalidKeyError key)).
Proof.
  intros Hne Ha. destruct key as [|c key']; [done|].
  pose proof (Forall_inv Ha) as Hc. pose proof (Forall_inv_tail Ha) as Hk.
  assert (HasPrefix ((c :: key') ++ equals :: v) "#" = false) as H1.
  { change (s2l "#") with [hash].
    simpl. rewrite HasPrefix_byte. apply eqb_neq. intros <-. by vm_compute in Hc. }
  assert (bool_decide (length (TrimSpace ((c :: key') ++ equals :: v)) = 0) = false)
    as H2.
  { apply bool_decide_eq_false. intros Hlen. apply nil_length_inv in Hlen.
    pose proof (TrimSpace_keeps c ((c :: key') ++ equals :: v)) as Hin.
    rewrite Hlen in Hin. eapply elem_of_nil, Hin; [by left|].
    by apply alnum_not_space. }
  assert (TrimPrefix ((c :: key') ++ equals :: v) "export "
          = (c :: key') ++ equals :: v) as H3.
  { unfold TrimPrefix.
    destruct (HasPrefix ((c :: key') ++ equals :: v) "export ") eqn:E; [|done].
    unfold HasPrefix in E. apply bool_decide_eq_true in E.
    apply prefix_before_sep in E; [|compute_done].
    destruct E as [r Hr]. rewrite Forall_forall in Ha.
    assert (alnum_ " " = true) as Hsp; [|by vm_compute in Hsp].
    apply Ha. rewrite Hr. apply elem_of_app. left. compute_done. }
  assert (equals ∉ c :: key') as H4.
  { intros Hin. rewrite Forall_forall in Ha. apply Ha in Hin.
    by vm_compute in Hin. }
  assert (TrimSpace (c :: key') = c :: key') as H5.
  { destruct key' as [|d key'] using rev_ind.
    - by apply TrimSpace_id1, alnum_not_space.
    - apply Forall_app in Hk as [_ Hd]. apply Forall_inv in Hd.
      by apply TrimSpace_id; apply alnum_not_space. }
  rewrite parseLoop_cons, H1, H2. cbn [orb].
  rewrite H3, SplitN_first by done. rewrite H5.
  by destruct (MatchString keyRegex (c :: key')).
Qed.

(** An assignment to a key of the grammar reaches [extractValue]. *)
Lemma parseLoop_assign (n : nat) envVars (key v : str) (scanner : list str) :
  isKey key →
  parseLoop (S n) envVars ((key ++ equals :: v) :: scanner)
  = match extractValue v scanner envVars with
    | Fail err => Some (Fail (valueError key err))
    | Panic => Some Panic
    | Return (val, scanner') => parseLoop n (<[key := val]> envVars) scanner'
    end.
Proof.
  intros Hk. rewrite parseLoop_key.
  - destruct Hk as (c & key' & -> & Hc & _).
    by rewrite (proj2 (keyRegex_first_byte (c :: key'))) by eauto.
  - by destruct Hk as (c & key' & -> & _).
  - by apply isKey_alnum.
Qed.

(** A key whose first byte is a digit ends the parse with [inValidKey],
    the key in the message. *)
Lemma parseLoop_invalid_key (n : nat) envVars (c : ascii) (key' v : str)
    (scanner : list str) :
  alnum_ c = true → letter_ c = false →
  Forall (λ c, alnum_ c = true) key' →
  parseLoop (S n) envVars (((c :: key') ++ equals :: v) :: scanner)
  = Some (Fail (invalidKeyError (c :: key'))).
Proof.
  intros Hc Hl Hk. rewrite parseLoop_key by (done || by constructor).
  destruct (MatchString keyRegex (c :: key')) eqn:E; [|done].
  apply keyRegex_first_byte in E as (c' & k' & [= <- <-] & Hc'). congruence.
Qed.

(** A line that is neither a comment nor blank and has no [=] ends the
    parse with [inValidLine]. *)
Lemma parseLoop_no_equals (n : nat) envVars (line : str) (scanner : list str) :
  HasPrefix line "#" = false → TrimSpace line ≠ [] → equals ∉ line →
  parseLoop (S n) envVars (line :: scanner) = Some (Fail inValidLine).
Proof.
  intros H1 H2 H3. rewrite parseLoop_cons, H1.
  rewrite bool_decide_eq_false_2.
  2:{ intros Hl. by apply nil_length_inv in Hl. }
  cbn [orb]. rewrite SplitN_absent; [done|].
  unfold TrimPrefix. destruct (HasPrefix line "export "); [|done].
  intros Hin. apply H3. by eapply subseteq_drop.
Qed.

(** *** What holds of unterminated and trailing text *)

Lemma drop_past (content : str) (q : ascii) (trailing : str) :
  drop (S (length content)) (content ++ q :: trailing) = trailing.
Proof. induction content as [|c content IH]; [done|]. apply IH. Qed.

(** [errors.Is] sees the sentinel through the wrapping of [Parse]. *)
Lemma Is_valueError (key : str) (err : error) : Is (valueError key err) err = true.
Proof.
  unfold valueError. cbn [Is]. apply orb_true_iff. right.
  destruct err; cbn [Is]; by rewrite bool_decide_eq_true_2.
Qed.

Lemma Is_invalidKeyError (key : str) : Is (invalidKeyError key) inValidKey = true.
Proof. done. Qed.

(** A quoted value without closing quote is reported, for both kinds of
    quote and whatever the mapping. *)
Lemma unterminated_quote_fails (q : ascii) (body : str) (scanner : list str) envVars :
  q = squote ∨ q = dquote →
  isMultiLine (q :: body) = false → closingQuote q q body = None →
  extractValue (q :: body) scanner envVars = Fail unterminatedQuote.
Proof.
  intros [-> | ->] Hml Hq.
  - by rewrite extractValue_squote, Hq.
  - by rewrite extractValue_dquote, Hq.
Qed.

(** Trailing text that is not a comment is reported after a closed
    single-quoted value, and after a closed double-quoted value whenever
    the substitution of its content returns. *)
Lemma trailing_text_rejected_squote (content trailing : str)
    (scanner : list str) envVars :
  isMultiLine (squote :: content ++ squote :: trailing) = false →
  closingQuote squote squote (content ++ squote :: trailing)
  = Some (length content) →
  ¬ commentOrBlank trailing →
  extractValue (squote :: content ++ squote :: trailing) scanner envVars
  = Fail unexpectedCharacters.
Proof.
  intros Hml Hq Ht. rewrite extractValue_squote, Hq by done.
  rewrite drop_past.
  unfold checkRemaining, commentOrBlank in *.
  destruct (decide (TrimSpace trailing = [])) as [E|E]; [tauto|].
  rewrite bool_decide_eq_false_2 by done.
  destruct (HasPrefix (TrimSpace trailing) "#"); [tauto|done].
Qed.

Lemma trailing_text_rejected_dquote (content trailing out : str)
    (scanner : list str) envVars :
  isMultiLine (dquote :: content ++ dquote :: trailing) = false →
  closingQuote dquote dquote (content ++ dquote :: trailing)
  = Some (length content) →
  substituteVariables content envVars = Some out →
  ¬ commentOrBlank trailing →
  extractValue (dquote :: content ++ dquote :: trailing) scanner envVars
  = Fail unexpectedCharacters.
Proof.
  intros Hml Hq Hs Ht. rewrite extractValue_dquote, Hq by done.
  rewrite take_app_length, Hs.
  rewrite drop_past.
  unfold checkRemaining, commentOrBlank in *.
  destruct (decide (TrimSpace trailing = [])) as [E|E]; [tauto|].
  rewrite bool_decide_eq_false_2 by done.
  destruct (HasPrefix (TrimSpace trailing) "#"); [tauto|done].
Qed.

Lemma checkRemaining_ok {A : Type} (trailing : str) (result : A) :
  commentOrBlank trailing →
  checkRemaining (TrimSpace trailing) result = Return result.
Proof.
  unfold checkRemaining, commentOrBlank. intros [-> | ->]; [done|].
  by rewrite andb_false_r.
Qed.

(** *** The same, seen from the line loop *)

Lemma parseLoop_unterminated_quote (n : nat) envVars (key : str) (q : ascii)
    (body : str) (scanner : list str) :
  isKey key → q = squote ∨ q = dquote →
  isMultiLine (q :: body) = false → closingQuote q q body = None →
  parseLoop (S n) envVars ((key ++ equals :: q :: body) :: scanner)
  = Some (Fail (valueError key unterminatedQuote)).
Proof.
  intros Hk Hq Hml Hc. rewrite parseLoop_assign by done.
  by rewrite unterminated_quote_fails.
Qed.

Lemma parseLoop_unterminated_tripleS (n : nat) envVars (key t : str)
    (scanner : list str) :
  isKey key → Forall (λ line, HasSuffix line tripleS = false) scanner →
  parseLoop (S n) envVars ((key ++ equals :: tripleS ++ t) :: scanner)
  = Some (Fail (valueError key unterminatedMultiLine)).
Proof.
  intros Hk Hs. rewrite parseLoop_assign by done.
  by rewrite extractValue_tripleS, multiLineLoop_unterminated_tripleS.
Qed.

Lemma parseLoop_unterminated_tripleD (n : nat) envVars (key t : str)
    (scanner : list str) :
  isKey key → Forall (λ line, HasSuffix line tripleD = false) scanner →
  Forall (λ line, is_Some (substituteVariables line envVars)) scanner →
  parseLoop (S n) envVars ((key ++ equals :: tripleD ++ t) :: scanner)
  = Some (Fail (valueError key unterminatedMultiLine)).
Proof.
  intros Hk Hs Hp. rewrite parseLoop_assign by done.
  by rewrite extractValue_tripleD, multiLineLoop_unterminated_tripleD.
Qed.

Lemma parseLoop_trailing_text_squote (n : nat) envVars (key content trailing : str)
    (scanner : list str) :
  isKey key →
  isMultiLine (squote :: content ++ squote :: trailing) = false →
  closingQuote squote squote (content ++ squote :: trailing)
  = Some (length content) →
  ¬ commentOrBlank trailing →
  parseLoop (S n) envVars (assignS key content trailing :: scanner)
  = Some (Fail (valueError key unexpectedCharacters)).
Proof.
  intros Hk Hml Hc Ht. unfold assignS. rewrite parseLoop_assign by done.
  by rewrite trailing_text_rejected_squote.
Qed.

Lemma parseLoop_trailing_text_dquote (n : nat) envVars
    (key content trailing out : str) (scanner : list str) :
  isKey key →
  isMultiLine (dquote :: content ++ dquote :: trailing) = false →
  closingQuote dquote dquote (content ++ dquote :: trailing)
  = Some (length content) →
  substituteVariables content envVars = Some out →
  ¬ commentOrBlank trailing →
  parseLoop (S n) envVars (assignD key content trailing :: scanner)
  = Some (Fail (valueError key unexpectedCharacters)).
Proof.
  intros Hk Hml Hc Hs Ht. unfold assignD. rewrite parseLoop_assign by done.
  by erewrite trailing_text_rejected_dquote.
Qed.

End dotenv_facts.

(** * More facts on the package *)
Section more_facts.
Import strings regexp dotenv.
Implicit Types (envVars : gmap str str) (scanner : list str).

(** *** The two passes of [parseEscape] *)

Lemma pass1_plain (c : ascii) (s : str) :
  c ≠ bslash → pass1 (c :: s) = c :: pass1 s.
Proof.
  intros Hc. apply Replace_keep, matchAt_none. simpl.
  by rewrite (proj2 (eqb_neq c bslash)).
Qed.

Lemma pass2_plain (c : ascii) (s : str) :
  c ≠ bslash → pass2 (c :: s) = c :: pass2 s.
Proof.
  intros Hc. apply Replace_keep, matchAt_none. simpl.
  by rewrite (proj2 (eqb_neq c bslash)).
Qed.

Lemma pass1_line_feed (s : str) :
  pass1 (bslash :: LF :: s) = bslash :: LF :: pass1 s.
Proof.
  unfold pass1. rewrite Replace_keep by by apply matchAt_none.
  by rewrite Replace_keep by by apply matchAt_none.
Qed.

Lemma pass1_escape (d : ascii) (s : str) :
  d ≠ LF → pass1 (bslash :: d :: s) = parseEscape_func [bslash; d] ++ pass1 s.
Proof.
  intros Hd. unfold pass1.
  change (bslash :: d :: s) with ([bslash; d] ++ s).
  apply Replace_hit; [done|]. apply matchAt_intro. simpl.
  unfold dot. by rewrite (proj2 (eqb_neq d LF)).
Qed.

Lemma pass2_escape (d : ascii) (s : str) :
  d ≠ dollar → pass2 (bslash :: d :: s) = d :: pass2 s.
Proof.
  intros Hd. unfold pass2.
  change (bslash :: d :: s) with ([bslash; d] ++ s).
  rewrite Replace_hit; [done|done|]. apply matchAt_intro. simpl.
  unfold notDollar. by rewrite (proj2 (eqb_neq d dollar)).
Qed.

Lemma pass2_dollar (s : str) :
  pass2 (bslash :: dollar :: s) = bslash :: dollar :: pass2 s.
Proof.
  unfold pass2. rewrite Replace_keep by by apply matchAt_none.
  by rewrite Replace_keep by by apply matchAt_none.
Qed.

Lemma parseEscape_func_pair (d : ascii) :
  parseEscape_func [bslash; d]
  = if eqb d "n" then [LF]
    else if eqb d "r" then [CR]
    else if eqb d "t" then [TAB]
    else if eqb d "f" then [FF]
    else if eqb d "b" then [BS]
    else [bslash; d].
Proof.
  unfold parseEscape_func.
  assert (TrimPrefix [bslash; d] [bslash] = [d]) as ->.
  { unfold TrimPrefix. by rewrite HasPrefix_byte, eqb_refl. }
  assert (∀ x : ascii, bool_decide ([d] = [x]) = eqb d x) as H.
  { intros x. unfold eqb. apply bool_decide_ext. split; congruence. }
  change (s2l "n") with ["n"%char]. change (s2l "r") with ["r"%char].
  change (s2l "t") with ["t"%char]. change (s2l "f") with ["f"%char].
  change (s2l "b") with ["b"%char].
  by rewrite !H.
Qed.

Lemma parseEscape_decodeEscapes (s : str) : parseEscape s = decodeEscapes s.
Proof.
  change (parseEscape s) with (pass2 (pass1 s)).
  induction s as [s IH] using shorter_ind.
  destruct s as [|c s]; [done|]. simpl.
  destruct (eqb c bslash) eqn:Hc.
  2:{ apply eqb_neq in Hc. rewrite pass1_plain, pass2_plain by done.
      f_equal. apply IH. simpl; lia. }
  apply eqb_eq in Hc as ->.
  destruct s as [|d s]; [done|].
  specialize (IH s ltac:(simpl; lia)).
  destruct (decide (d = LF)) as [->|Hlf].
  { rewrite pass1_line_feed, pass2_escape by done. by rewrite IH. }
  rewrite pass1_escape, parseEscape_func_pair by done. unfold escapeOf.
  destruct (eqb d "n"); [by simpl; rewrite pass2_plain, IH|].
  destruct (eqb d "r"); [by simpl; rewrite pass2_plain, IH|].
  destruct (eqb d "t"); [by simpl; rewrite pass2_plain, IH|].
  destruct (eqb d "f"); [by simpl; rewrite pass2_plain, IH|].
  destruct (eqb d "b"); [by simpl; rewrite pass2_plain, IH|].
  simpl. destruct (eqb d dollar) eqn:Hd.
  - apply eqb_eq in Hd as ->. by rewrite pass2_dollar, IH.
  - apply eqb_neq in Hd. by rewrite pass2_escape, IH.
Qed.


(** *** Where the bytes of the pieces come from *)

Lemma TrimSpace_subseteq (s : str) : TrimSpace s ⊆ s.
Proof.
  intros c Hc. unfold TrimSpace, TrimRightSpace in Hc.
  destruct (TrimLeftSpace_decomp s) as (pre & E & _).
  destruct (trimRevSpace_decomp (reverse (TrimLeftSpace s))) as (pre' & E' & _).
  rewrite elem_of_reverse in Hc.
  assert (c ∈ reverse (TrimLeftSpace s)) as H.
  { rewrite E'. apply elem_of_app. by right. }
  rewrite elem_of_reverse in H. rewrite E. apply elem_of_app. by right.
Qed.

Lemma TrimPrefix_subseteq (s p : str) : TrimPrefix s p ⊆ s.
Proof. unfold TrimPrefix. destruct (HasPrefix s p); [apply subseteq_drop|done]. Qed.

Lemma TrimSuffix_subseteq (s p : str) : TrimSuffix s p ⊆ s.
Proof. unfold TrimSuffix. destruct (HasSuffix s p); [apply subseteq_take|done]. Qed.

Lemma Split_head_subseteq (s : str) (sep : ascii) :
  default [] (head (Split s sep)) ⊆ s.
Proof.
  induction s as [|c s IH]; simpl; [done|].
  destruct (eqb c sep); simpl; [by intros x Hx; apply elem_of_nil in Hx|].
  destruct (Split s sep) as [|piece pieces]; simpl in *.
  - intros x Hx. apply list_elem_of_singleton in Hx as ->. by left.
  - intros x Hx. apply elem_of_cons in Hx as [->|Hx]; [by left|].
    right. by apply IH.
Qed.

(** Two pieces are the text before the first separator and the text
    behind it. *)
Lemma SplitN_two (s k v : str) (sep : ascii) :
  SplitN s sep 2 = [k; v] → s = k ++ sep :: v ∧ sep ∉ k.
Proof.
  revert k. induction s as [|c s IH]; intros k; [done|].
  change (SplitN (c :: s) sep 2)
    with (if eqb c sep then [] :: SplitN s sep 1
          else match SplitN s sep 2 with
               | piece :: pieces => (c :: piece) :: pieces
               | [] => [[c]]
               end).
  destruct (eqb c sep) eqn:Hc.
  - apply eqb_eq in Hc as ->.
    assert (SplitN s sep 1 = [s]) as -> by by destruct s.
    intros [= <- <-]. split; [done|]. apply not_elem_of_nil.
  - apply eqb_neq in Hc.
    destruct (SplitN s sep 2) as [|piece [|v' [|]]] eqn:E; try done.
    intros [= <- <-]. destruct (IH piece eq_refl) as [-> Hk].
    split; [done|]. apply not_elem_of_cons. split; [congruence|done].
Qed.

Lemma multiLineLoop_suffix (prefix acc : str) scanner envVars
    (val : str) (scanner' : list str) :
  multiLineLoop prefix acc scanner envVars = Return (val, scanner') →
  scanner' `suffix_of` scanner ∧ length scanner' < length scanner.
Proof.
  revert acc. induction scanner as [|line scanner IH]; intros acc; simpl; [done|].
  destruct (HasSuffix line prefix).
  - intros [= _ <-]. split; [by apply suffix_cons_r|lia].
  - destruct (if bool_decide _ then _ else _); [|done].
    intros H. apply IH in H as [H1 H2]. split; [by apply suffix_cons_r|lia].
Qed.

Lemma isMultiLine_unquoted (val : str) :
  HasPrefix val [squote] = false → HasPrefix val [dquote] = false →
  isMultiLine val = false.
Proof.
  intros Hs Hd. unfold isMultiLine.
  change (s2l "'''") with [squote; squote; squote].
  destruct val as [|c val]; [by vm_compute|].
  rewrite HasPrefix_byte in Hs, Hd. rewrite !HasPrefix_cons.
  by rewrite Hs, Hd.
Qed.

(** [extractValue] moves the scanner only for a triple-quoted value, and
    then by at least one line. *)
Lemma extractValue_suffix (val : str) scanner envVars (out : str)
    (scanner' : list str) :
  extractValue val scanner envVars = Return (out, scanner') →
  scanner' `suffix_of` scanner
  ∧ (if isMultiLine val then length scanner' < length scanner
     else scanner' = scanner).
Proof.
  unfold extractValue. change (s2l "'") with [squote].
  destruct (negb (HasPrefix val [squote]) && negb (HasPrefix val [dquote])) eqn:Hq.
  { apply andb_prop in Hq. destruct Hq as [Hs Hd].
    apply negb_true_iff in Hs, Hd. rewrite isMultiLine_unquoted by done.
    destruct (substituteVariables _ _); [|done].
    intros ?; simplify_eq; by split. }
  destruct (isMultiLine val); [apply multiLineLoop_suffix|].
  destruct (if HasPrefix val [_] then _ else _) as [val' remaining].
  destruct (HasPrefix val' _); [done|].
  destruct (if eqb _ dquote then _ else _); [|done].
  destruct (negb (bool_decide _) && _); [done|].
  intros ?; simplify_eq; by split.
Qed.

Lemma quoteLoop_subseteq (n i : nat) (q : ascii) (val remaining : str) :
  (quoteLoop n i q val remaining).1 ⊆ val.
Proof.
  revert i val remaining. induction n as [|n IH]; intros i val remaining; [done|].
  simpl. destruct (bool_decide (i < length val)); [|done].
  destruct (_ && _); [|apply IH].
  etrans; [apply IH|]. etrans; [apply subseteq_take|apply subseteq_drop].
Qed.

(** *** Input without [$] *)

Lemma multiLineLoop_no_panic (prefix acc : str) scanner envVars :
  Forall (λ line : str, dollar ∉ line) scanner →
  multiLineLoop prefix acc scanner envVars ≠ Panic.
Proof.
  intros Hs. revert acc. induction Hs as [|line scanner Hline _ IH]; intros acc;
    simpl; [done|].
  destruct (HasSuffix line prefix); [done|].
  assert (dollar ∉ TrimSuffix (TrimSuffix line prefix) prefix) as Hd.
  { intros Hin. by apply TrimSuffix_subseteq, TrimSuffix_subseteq in Hin. }
  destruct (bool_decide _); [|apply IH].
  rewrite substitute_plain_all by done. apply IH.
Qed.

Lemma extractValue_no_panic (val : str) scanner envVars :
  dollar ∉ val → Forall (λ line : str, dollar ∉ line) scanner →
  extractValue val scanner envVars ≠ Panic.
Proof.
  intros Hv Hs. unfold extractValue.
  destruct (negb _ && negb _).
  { rewrite substitute_plain_all; [done|].
    intros Hin. by apply TrimSpace_subseteq, Split_head_subseteq in Hin. }
  destruct (isMultiLine val); [by apply multiLineLoop_no_panic|].
  set (prefix := if HasPrefix val "'" then squote else dquote).
  assert (∀ pair, pair = (if HasPrefix val [prefix]
                          then quoteLoop (length val) 1 prefix val []
                          else (val, [])) → dollar ∉ pair.1) as Hq.
  { intros pair ->. destruct (HasPrefix val [prefix]); [|done].
    intros Hin. by apply quoteLoop_subseteq in Hin. }
  destruct (if HasPrefix val [prefix] then _ else _) as [val' remaining].
  specialize (Hq _ eq_refl). simpl in Hq.
  destruct (HasPrefix val' _); [done|].
  rewrite substitute_plain_all by done.
  destruct (eqb prefix dquote); simpl; by destruct (negb _ && negb _).
Qed.

Lemma parseLoop_no_panic (n : nat) envVars scanner :
  Forall (λ line : str, dollar ∉ line) scanner →
  parseLoop n envVars scanner ≠ Some Panic.
Proof.
  revert envVars scanner. induction n as [|n IH]; intros envVars scanner Hs; [done|].
  destruct Hs as [|line scanner Hline Hs]; [done|].
  rewrite parseLoop_cons.
  destruct (_ || _); [by apply IH|].
  destruct (SplitN _ _ _) as [|k [|v [|]]] eqn:E; try done.
  apply SplitN_two in E as [E _].
  destruct (negb _); [done|].
  assert (dollar ∉ v) as Hv.
  { intros Hin. apply Hline, (TrimPrefix_subseteq _ "export "). rewrite E.
    apply elem_of_app. right. by right. }
  pose proof (extractValue_no_panic v scanner envVars Hv Hs) as Hp.
  destruct (extractValue v scanner envVars) as [[val scanner']| |] eqn:Ev; try done.
  apply IH. apply extractValue_suffix in Ev as [[pre ->] _].
  by apply Forall_app in Hs as [_ Hs].
Qed.

(** *** The errors of [Parse] *)




(** *** The keys of the mapping *)

Lemma parseLoop_keys (n : nat) envVars scanner (m : gmap str str) :
  (∀ key, is_Some (envVars !! key) → storedKey key) →
  parseLoop n envVars scanner = Some (Return m) →
  ∀ key, is_Some (m !! key) → storedKey key.
Proof.
  revert envVars scanner. induction n as [|n IH]; intros envVars scanner Henv;
    [done|].
  destruct scanner as [|line scanner]; [by intros [= <-]|].
  rewrite parseLoop_cons.
  destruct (_ || _); [by apply IH|].
  destruct (SplitN _ _ _) as [|k [|v [|]]] eqn:E; try done.
  apply SplitN_two in E as [_ Hk].
  destruct (negb (MatchString keyRegex (TrimSpace k))) eqn:Hm; [done|].
  apply negb_false_iff, keyRegex_first_byte in Hm.
  destruct (extractValue v scanner envVars) as [[val scanner']| |]; try done.
  apply IH. intros key [x Hx].
  destruct (decide (key = TrimSpace k)) as [->|Hne].
  - split; [done|]. split; [|apply TrimSpace_idem].
    intros Hin. by apply TrimSpace_subseteq in Hin.
  - rewrite lookup_insert_ne in Hx by done. apply Henv. by eexists.
Qed.

(** *** Plain values, [export] and skipped lines *)

Lemma decodeEscapes_plain (s : str) : bslash ∉ s → decodeEscapes s = s.
Proof.
  induction s as [|c s IH]; intros Hs; [done|].
  apply not_elem_of_cons in Hs as [Hc Hs]. simpl.
  rewrite (proj2 (eqb_neq c bslash)) by done. by rewrite IH.
Qed.

Lemma parseEscape_plain (s : str) : bslash ∉ s → parseEscape s = s.
Proof. intros Hs. by rewrite parseEscape_decodeEscapes, decodeEscapes_plain. Qed.

Lemma parseLoop_skip (n : nat) envVars (line : str) scanner :
  skipped line →
  parseLoop (S n) envVars (line :: scanner) = parseLoop n envVars scanner.
Proof.
  intros Hs. rewrite parseLoop_cons. destruct Hs as [-> | ->]; [done|].
  by rewrite orb_true_r.
Qed.

Lemma parseLoop_export (n : nat) envVars (line : str) scanner :
  HasPrefix line "#" = false → TrimSpace line ≠ [] →
  HasPrefix line "export " = false →
  parseLoop (S n) envVars (("export " ++ line) :: scanner)
  = parseLoop (S n) envVars (line :: scanner).
Proof.
  intros H1 H2 H3. rewrite !parseLoop_cons. rewrite H1.
  assert (HasPrefix ("export " ++ line) "#" = false) as -> by done.
  assert (bool_decide (length (TrimSpace line) = 0) = false) as ->.
  { apply bool_decide_eq_false. intros Hl. by apply nil_length_inv in Hl. }
  assert (bool_decide (length (TrimSpace ("export " ++ line)) = 0) = false) as ->.
  { apply bool_decide_eq_false. intros Hl. apply nil_length_inv in Hl.
    pose proof (TrimSpace_keeps "e" ("export " ++ line)) as Hin.
    rewrite Hl in Hin. eapply elem_of_nil, Hin; [by left|by vm_compute]. }
  cbn [orb].
  assert (TrimPrefix ("export " ++ line) "export " = line) as ->.
  { unfold TrimPrefix.
    rewrite (proj2 (HasPrefix_true ("export " ++ line) "export ")) by by eexists.
    done. }
  unfold TrimPrefix at 1. by rewrite H3.
Qed.

(** *** Triple-quoted blocks *)

Lemma TrimSuffix_decodedLines (lines : list str) :
  TrimSuffix (decodedLines lines) [LF] = joinLines (map parseEscape lines).
Proof.
  assert (∀ x : str, TrimSuffix (x ++ [LF]) [LF] = x) as Hcut.
  { intros x. unfold TrimSuffix, HasSuffix.
    rewrite (bool_decide_eq_true_2 ([LF] `suffix_of` x ++ [LF]))
      by by apply suffix_app_r.
    rewrite length_app. simpl.
    replace (length x + 1 - 1) with (length x) by lia.
    by rewrite take_app_length. }
  destruct lines as [|line lines]; [done|].
  assert (∀ line lines, decodedLines (line :: lines)
            = joinLines (map parseEscape (line :: lines)) ++ [LF]) as H.
  { clear. intros line lines. revert line.
    induction lines as [|l2 lines IH]; intros line.
    - unfold decodedLines. simpl. by rewrite app_nil_r.
    - change (decodedLines (line :: l2 :: lines))
        with ((parseEscape line ++ [LF]) ++ decodedLines (l2 :: lines)).
      rewrite IH. simpl. by rewrite <- !app_assoc. }
  by rewrite H, Hcut.
Qed.

(** *** Files *)

Lemma extScan_dot (rev_path suffix ext : str) :
  path.extScan rev_path suffix = "." ++ ext
  ↔ ∃ mid rest, rev_path = mid ++ "." ++ rest ∧ ext = reverse mid ++ suffix
      ∧ Forall (λ c : ascii, c ≠ "/"%char ∧ c ≠ "."%char) mid.
Proof.
  revert suffix. induction rev_path as [|c r IH]; intros suffix; simpl.
  { split; [done|]. intros (mid & rest & H & _). by destruct mid. }
  destruct (eqb c "/") eqn:Hs.
  { apply eqb_eq in Hs as ->. split; [done|].
    intros ([|m mid] & rest & H & _ & Hmid); [done|].
    simpl in H. injection H as <- _. apply Forall_inv in Hmid. by destruct Hmid. }
  destruct (eqb c ".") eqn:Hd.
  { apply eqb_eq in Hd as ->. split.
    - intros [= <-]. by exists [], r.
    - intros ([|m mid] & rest & H & -> & Hmid); [done|].
      simpl in H. injection H as <- _. apply Forall_inv in Hmid. by destruct Hmid. }
  apply eqb_neq in Hs, Hd. rewrite IH. split.
  - intros (mid & rest & -> & -> & Hmid). exists (c :: mid), rest.
    split; [done|]. split; [|by constructor].
    rewrite reverse_cons. by rewrite <- app_assoc.
  - intros ([|m mid] & rest & H & -> & Hmid).
    { simpl in H. injection H as -> _. done. }
    simpl in H. injection H as <- ->. exists mid, rest.
    split; [done|]. split; [|by eapply Forall_inv_tail].
    rewrite reverse_cons. by rewrite <- app_assoc.
Qed.

Lemma Ext_env (filename : str) :
  path.Ext filename = ".env" ↔ ".env" `suffix_of` filename.
Proof.
  unfold path.Ext. change (s2l ".env") with ("." ++ "env").
  rewrite extScan_dot. split.
  - intros (mid & rest & H & Hext & _). rewrite app_nil_r in Hext.
    apply (f_equal reverse) in H. rewrite reverse_involutive in H.
    rewrite H, reverse_app. rewrite (reverse_app "." rest), <- app_assoc.
    change (reverse (s2l ".")) with (s2l "."). rewrite <- Hext.
    exists (reverse rest). done.
  - intros [base ->]. exists (reverse "env"), (reverse base).
    split; [|split].
    + by rewrite reverse_app.
    + by rewrite reverse_involutive, app_nil_r.
    + by repeat constructor.
Qed.

Lemma mergeInto_union (envVars vars : gmap str str) :
  mergeInto envVars vars = vars ∪ envVars.
Proof.
  unfold mergeInto.
  induction vars as [|key val vars Hkey Hfirst IH] using map_first_key_ind.
  - by rewrite map_fold_empty, (left_id_L ∅ (∪)).
  - rewrite map_fold_insert_first_key by done. rewrite IH.
    by rewrite insert_union_l.
Qed.

Lemma readLoop_union (open : str → error + list str) (filenames : list str) :
  ∀ envVars,
  readLoop open envVars filenames
  = match Read open filenames with
    | Some (Return m) => Some (Return (m ∪ envVars))
    | other => other
    end.
Proof.
  unfold Read. induction filenames as [|filename filenames IH]; intros envVars.
  - simpl. by rewrite (left_id_L ∅ (∪)).
  - simpl. destruct (negb _); [done|].
    destruct (open filename) as [err|envFile]; [done|].
    destruct (Parse envFile) as [[vars| |]|]; try done.
    rewrite !mergeInto_union. rewrite (IH (vars ∪ envVars)), (IH (vars ∪ ∅)).
    destruct (readLoop open ∅ filenames) as [[m| |]|]; try done.
    by rewrite (right_id_L ∅ (∪)), (assoc_L (∪)).
Qed.

Lemma Read_app (open : str → error + list str) (first second : list str) :
  Read open (first ++ second)
  = match Read open first with
    | Some (Return m1) =>
        match Read open second with
        | Some (Return m2) => Some (Return (m2 ∪ m1))
        | other => other
        end
    | other => other
    end.
Proof.
  unfold Read at 1 2. generalize (∅ : gmap str str).
  induction first as [|filename first IH]; intros envVars.
  - simpl. apply readLoop_union.
  - simpl. destruct (negb _); [done|].
    destruct (open filename) as [err|envFile]; [done|].
    destruct (Parse envFile) as [[vars| |]|]; try done.
Qed.

Lemma readLoop_keys (open : str → error + list str) (filenames : list str) :
  ∀ envVars (m : gmap str str),
  (∀ key, is_Some (envVars !! key) → storedKey key) →
  readLoop open envVars filenames = Some (Return m) →
  ∀ key, is_Some (m !! key) → storedKey key.
Proof.
  induction filenames as [|filename filenames IH]; intros envVars m Henv; simpl.
  { by intros [= <-]. }
  destruct (negb _); [done|].
  destruct (open filename) as [err|envFile]; [done|].
  destruct (Parse envFile) as [[vars| |]|] eqn:E; try done.
  apply IH. intros key [x Hx]. rewrite mergeInto_union in Hx.
  apply lookup_union_Some_raw in Hx as [Hx|[_ Hx]].
  - eapply (parseLoop_keys _ ∅); [|exact E|by eexists].
    intros k [y Hy]. by rewrite lookup_empty in Hy.
  - apply Henv. by eexists.
Qed.

(** *** The environment *)

(** Keys and values [os.Setenv] accepts. *)
Lemma Setenv_ok (key val : str) (environ : gmap str str) :
  key ≠ [] → equals ∉ key → os.NUL ∉ key → os.NUL ∉ val →
  os.Setenv key val environ = inr (<[key := val]> environ).
Proof.
  intros Hne Heq Hk Hv. unfold os.Setenv.
  rewrite bool_decide_eq_false_2.
  2:{ intros Hl. by apply nil_length_inv in Hl. }
  assert (existsb (λ c, eqb c equals || eqb c os.NUL) key = false) as ->.
  { apply not_true_is_false. intros H. apply existsb_exists in H as (c & Hc & H).
    apply list_elem_of_In in Hc. apply orb_true_iff in H as [H|H];
      apply eqb_eq in H as ->; done. }
  assert (existsb (λ c, eqb c os.NUL) val = false) as ->; [|done].
  apply not_true_is_false. intros H. apply existsb_exists in H as (c & Hc & H).
  apply list_elem_of_In in Hc. by apply eqb_eq in H as ->.
Qed.

Lemma Setenv_nul (key val : str) (environ : gmap str str) :
  os.NUL ∈ key ∨ os.NUL ∈ val → os.Setenv key val environ = inl os.setenvError.
Proof.
  intros H. unfold os.Setenv.
  destruct (bool_decide (length key = 0)); [done|].
  destruct (existsb (λ c, eqb c equals || eqb c os.NUL) key) eqn:Ek; [done|].
  destruct (existsb (λ c, eqb c os.NUL) val) eqn:Ev; [done|].
  exfalso. destruct H as [H|H]; apply list_elem_of_In in H.
  - apply not_true_iff_false in Ek. apply Ek, existsb_exists.
    exists os.NUL. split; [done|]. by rewrite eqb_refl, orb_true_r.
  - apply not_true_iff_false in Ev. apply Ev, existsb_exists.
    exists os.NUL. split; [done|]. by rewrite eqb_refl.
Qed.

Lemma Setenv_error (key val : str) (environ : gmap str str) (err : error) :
  os.Setenv key val environ = inl err → err = os.setenvError.
Proof.
  unfold os.Setenv. repeat case_match; congruence.
Qed.

Lemma setenvLoop_ok (entries : list (str * str)) :
  ∀ environ : gmap str str,
  NoDup entries.*1 →
  Forall (λ e : str * str,
            e.1 ≠ [] ∧ (equals ∉ e.1) ∧ (os.NUL ∉ e.1) ∧ (os.NUL ∉ e.2))
         entries →
  setenvLoop entries environ
  = (Return (), (list_to_map entries : gmap str str) ∪ environ).
Proof.
  induction entries as [|[key val] entries IH]; intros environ Hnd Hall.
  { simpl. by rewrite (left_id_L ∅ (∪)). }
  apply Forall_cons in Hall as [(H1 & H2 & H3 & H4) Hall].
  apply NoDup_cons in Hnd as [Hkey Hnd]. simpl in *.
  rewrite Setenv_ok by done. rewrite IH by done. f_equal.
  rewrite <- insert_union_r.
  - by rewrite insert_union_l.
  - by apply not_elem_of_list_to_map_1.
Qed.

Lemma setenvLoop_fails (entries : list (str * str)) (key val : str) :
  ∀ environ : gmap str str,
  (key, val) ∈ entries → os.NUL ∈ key ∨ os.NUL ∈ val →
  ∃ environ', setenvLoop entries environ = (Fail os.setenvError, environ').
Proof.
  induction entries as [|[k v] entries IH]; intros environ Hin Hnul.
  { by apply elem_of_nil in Hin. }
  simpl. destruct (os.Setenv k v environ) as [err|environ'] eqn:E.
  - apply Setenv_error in E as ->. by eexists.
  - apply elem_of_cons in Hin as [[= <- <-]|Hin].
    + by rewrite Setenv_nul in E.
    + by apply IH.
Qed.



(** *** A [$] with nothing to name *)

Lemma afterDollar_none (rest : str) :
  match rest with
  | [] => True
  | c :: _ => c ≠ "("%char ∧ c ≠ "{"%char ∧ c ≠ "}"%char ∧ upperNum_ c = false
  end →
  afterDollar rest = rest.
Proof.
  destruct rest as [|c rest]; [done|]. intros (H1 & H2 & H3 & H4).
  unfold afterDollar. simpl.
  rewrite (proj2 (eqb_neq c "(")) by done. simpl.
  rewrite (proj2 (eqb_neq c "{")) by done. simpl.
  rewrite H4. simpl. by rewrite (proj2 (eqb_neq c "}")).
Qed.

Lemma substitute_short_match (m rest : str) envVars :
  0 < length m < 3 →
  matchAt (body substituteVarRegex) (m ++ rest) = Some (length m) →
  substituteVariables (m ++ rest) envVars = None.
Proof.
  intros Hlen Hm. unfold substituteVariables.
  rewrite ReplaceP_hit; [|intros ->; simpl in Hlen; lia|done].
  unfold substituteVariables_func, slice.
  by rewrite bool_decide_eq_false_2 by lia.
Qed.

End more_facts.

Section quote_facts.
Import strings regexp dotenv.

(** No closing quote: every quote byte stands right behind a backslash. *)
Lemma closingQuote_None (q prev : ascii) (s : str) :
  (∀ i, s !! i = Some q → (prev :: s) !! i = Some bslash) →
  closingQuote q prev s = None.
Proof.
  intros H. destruct (closingQuote q prev s) as [j|] eqn:Hj; [|done].
  apply closingQuote_Some in Hj as (Hq & Hb & _). by apply H in Hq.
Qed.

(** The closing quote behind content that holds no quote of its kind and
    does not end in a backslash. *)
Lemma closingQuote_content (q : ascii) (content trailing : str) :
  q ≠ bslash → (q ∉ content) → last content ≠ Some bslash →
  closingQuote q q (content ++ q :: trailing) = Some (length content).
Proof.
  intros Hq Hin Hlast. apply closingQuote_Some. split; [|split].
  - change ((content ++ q :: trailing) !! length content = Some q).
    by apply list_lookup_middle.
  - destruct content as [|c content _] using rev_ind.
    + simpl. congruence.
    + rewrite last_snoc in Hlast. rewrite length_app, Nat.add_1_r.
      change (((content ++ [c]) ++ q :: trailing) !! length content
              ≠ Some bslash).
      rewrite <- app_assoc. change ([c] ++ q :: trailing) with (c :: q :: trailing).
      rewrite list_lookup_middle by done. congruence.
  - intros i Hi [Hi' _].
    change ((content ++ q :: trailing) !! i = Some q) in Hi'.
    rewrite lookup_app_l in Hi' by done.
    apply Hin. by eapply list_elem_of_lookup_2.
Qed.

Lemma isMultiLine_quoted (q : ascii) (content trailing : str) :
  (q ∉ content) → (content = [] → head trailing ≠ Some q) →
  isMultiLine (q :: content ++ q :: trailing) = false.
Proof.
  intros Hin Hhead. unfold isMultiLine.
  change (s2l "'''") with [squote; squote; squote].
  rewrite !HasPrefix_cons.
  assert (∀ d, eqb d q = true → HasPrefix (content ++ q :: trailing) [d; d] = false)
    as Hd.
  { intros d ->%eqb_eq. destruct content as [|c content].
    - simpl. rewrite HasPrefix_cons, eqb_refl. simpl.
      destruct trailing as [|t trailing]; [apply HasPrefix_nil_byte|].
      rewrite HasPrefix_byte. apply eqb_neq. intros ->. by apply Hhead.
    - simpl. rewrite HasPrefix_cons.
      replace (eqb q c) with false; [done|].
      symmetry. apply eqb_neq. intros ->. apply Hin. by left. }
  destruct (eqb dquote q) eqn:E1, (eqb squote q) eqn:E2; simpl;
    rewrite ?Hd by done; done.
Qed.

Lemma isMultiLine_escaped (q : ascii) (body : str) :
  (∀ i, body !! i = Some q → (q :: body) !! i = Some bslash) →
  q ≠ bslash → isMultiLine (q :: body) = false.
Proof.
  intros H Hq. unfold isMultiLine.
  change (s2l "'''") with [squote; squote; squote].
  rewrite !HasPrefix_cons.
  assert (∀ d, eqb d q = true → HasPrefix body [d; d] = false) as Hd.
  { intros d ->%eqb_eq. destruct body as [|c body]; [by vm_compute|].
    rewrite HasPrefix_cons. replace (eqb q c) with false; [done|].
    symmetry. apply eqb_neq. intros ->. specialize (H 0 eq_refl).
    simpl in H. congruence. }
  destruct (eqb dquote q) eqn:E1, (eqb squote q) eqn:E2; simpl;
    rewrite ?Hd by done; done.
Qed.

(** Entries in another order give the same mapping. *)
Lemma list_to_map_order (order : list (str * str) → list (str * str))
    (vars : gmap str str) :
  (∀ entries, order entries ≡ₚ entries) →
  NoDup (order (map_to_list vars)).*1
  ∧ (list_to_map (order (map_to_list vars)) : gmap str str) = vars.
Proof.
  intros Hperm. pose proof (Hperm (map_to_list vars)) as Hp.
  assert (NoDup (order (map_to_list vars)).*1) as Hnd.
  { rewrite Hp. apply NoDup_fst_map_to_list. }
  split; [done|].
  rewrite (list_to_map_proper _ _ Hnd Hp). apply list_to_map_to_list.
Qed.

End quote_facts.

(** * The claims of the specification *)
Section claims.
Import strings regexp dotenv.

Implicit Types (envVars : gmap str str) (scanner : list str).

(** ** Substitution *)

(** C1.  A reference behind a backslash is not left as it is.  The
    pattern takes the backslash into the match, and the callback slices
    every match as [match[2:len(match)-1]]: for [\${A}] that is [{A], so
    it looks up the name [{A] and puts what it finds, normally nothing,
    in place of the whole token.  With [A] bound to [1], [K="\${A}"] and
    [K=\${A}] get the empty string, not the text [${A}]; without the
    backslash [K] gets [1].  Escape decoding on its own would leave the
    backslash in front of [$]. *)
Theorem escaped_reference_is_replaced :
  Parse [s2l "A=1"; "K=" ++ dquote :: bslash :: braceRef "A" ++ [dquote]]
  = Some (Return {[ s2l "A" := s2l "1"; s2l "K" := [] ]})
  ∧ Parse [s2l "A=1"; "K=" ++ dquote :: bslash :: braceRef "A" ++ [dquote]]
    ≠ Some (Return {[ s2l "A" := s2l "1"; s2l "K" := braceRef "A" ]})
  ∧ Parse [s2l "A=1"; s2l "K=\${A}"]
    = Some (Return {[ s2l "A" := s2l "1"; s2l "K" := [] ]})
  ∧ (∀ envVars,
       substituteVariables (bslash :: braceRef "A") envVars
       = Some (default [] (envVars !! s2l "{A")))
  ∧ Parse [s2l "A=1"; "K=" ++ dquote :: braceRef "A" ++ [dquote]]
    = Some (Return {[ s2l "A" := s2l "1"; s2l "K" := s2l "1" ]})
  ∧ parseEscape (bslash :: braceRef "A") = bslash :: braceRef "A".
Proof.
  assert (Parse [s2l "A=1"; "K=" ++ dquote :: bslash :: braceRef "A" ++ [dquote]]
          = Some (Return {[ s2l "A" := s2l "1"; s2l "K" := [] ]})) as E
    by by vm_compute.
  split; [done|]. split; [rewrite E; by intros [=]|].
  split; [by vm_compute|]. split; [|split; by vm_compute].
  intros envVars.
  pose proof (substitute_escaped_braceRef "A" [] envVars) as H.
  rewrite app_nil_r in H. rewrite H by by repeat constructor.
  change (substituteVariables [] envVars) with (Some (@nil ascii)).
  simpl. by rewrite app_nil_r.
Qed.

(** C2.  The pattern also matches [$NAME] and [$(NAME], but the callback
    slices every match as if it were [${NAME}]: [K=$A] panics, and
    [K=$(A)] looks up the empty name and leaves the parenthesis behind.
    Only [K=${A}] gives the value of [A]. *)
Theorem bare_and_parenthesised_references :
  Parse [s2l "A=1"; s2l "K=$A"] = Some Panic
  ∧ Parse [s2l "A=1"; s2l "K=$(A)"]
    = Some (Return {[ s2l "A" := s2l "1"; s2l "K" := s2l ")" ]})
  ∧ Parse [s2l "A=1"; s2l "K=${A}"]
    = Some (Return {[ s2l "A" := s2l "1"; s2l "K" := s2l "1" ]}).
Proof. repeat split; by vm_compute. Qed.

(** C6.  A reference [${NAME}] is not replaced in every value: the
    callback slices every match as [match[2:len(match)-1]], so a [$]
    further on in the same value that starts a match of fewer than three
    bytes makes it panic, and the parse crashes instead of giving the
    value with the reference replaced.  [B=${A} costs $5] panics, quoted
    or not; [B=${A} costs 5] gives [1 costs 5].  The examples of the
    claim come out as it says, and a value that is inserted is not
    substituted again. *)
Theorem reference_beside_bare_dollar_panics :
  Parse [s2l "A=1"; s2l "B=${A} costs $5"] = Some Panic
  ∧ Parse [s2l "A=1"; "B=" ++ dquote :: "${A} costs $5" ++ [dquote]]
    = Some Panic
  ∧ Parse [s2l "A=1"; s2l "B=${A} costs 5"]
    = Some (Return {[ s2l "A" := s2l "1"; s2l "B" := s2l "1 costs 5" ]})
  ∧ Parse [s2l "A=1"; s2l "B=${A}${A}"; s2l "C=${UNKNOWN}"]
    = Some (Return {[ s2l "A" := s2l "1"; s2l "B" := s2l "11"; s2l "C" := [] ]})
  ∧ Parse [s2l "A='${B}'"; s2l "B=2"; s2l "C=${A}"]
    = Some (Return {[ s2l "A" := s2l "${B}"; s2l "B" := s2l "2";
                      s2l "C" := s2l "${B}" ]}).
Proof. repeat split; by vm_compute. Qed.

(** Where the substitution returns on the text before and on the text
    after it, a reference [${NAME}] that no backslash precedes is
    replaced by the value the mapping has for NAME, or by nothing when it
    has none; the replacement is copied as it is. *)
Lemma references_are_replaced_once (pre name rest : str) envVars :
  last pre ≠ Some bslash → isName name →
  substituteVariables (pre ++ braceRef name ++ rest) envVars
  = match substituteVariables pre envVars, substituteVariables rest envVars with
    | Some before, Some after =>
        Some (before ++ default [] (envVars !! name) ++ after)
    | _, _ => None
    end
  ∧ Parse [s2l "A=1"; s2l "B=${A}${A}"; s2l "C=${UNKNOWN}"]
    = Some (Return {[ s2l "A" := s2l "1"; s2l "B" := s2l "11"; s2l "C" := [] ]})
  ∧ Parse [s2l "A='${B}'"; s2l "B=2"; s2l "C=${A}"]
    = Some (Return {[ s2l "A" := s2l "${B}"; s2l "B" := s2l "2";
                      s2l "C" := s2l "${B}" ]}).
Proof.
  intros Hlast Hname. split; [|split; by vm_compute].
  change (braceRef name ++ rest) with (dollar :: ("{" ++ name ++ "}") ++ rest).
  rewrite substitute_before_token; [|by left|by intros ?].
  change (dollar :: ("{" ++ name ++ "}") ++ rest) with (braceRef name ++ rest).
  rewrite substitute_braceRef by done.
  by destruct (substituteVariables pre envVars),
              (substituteVariables rest envVars).
Qed.

(** ** Keys and lines *)

(** C3.  [keyRegex] is anchored at the start only, so a key is accepted as
    soon as its first byte is a letter or an underscore: [A-B=1] parses,
    with the key [A-B].  A key that starts with a digit is refused. *)
Theorem key_with_trailing_garbage_accepted :
  Parse [s2l "A-B=1"] = Some (Return {[ s2l "A-B" := s2l "1" ]})
  ∧ MatchString keyRegex "A-B" = true
  ∧ ¬ isKey "A-B"
  ∧ Parse [s2l "1A=1"] = Some (Fail (invalidKeyError "1A")).
Proof.
  split; [by vm_compute|]. split; [by vm_compute|]. split; [|by vm_compute].
  intros (c & key' & [= <- <-] & _ & H).
  apply Forall_inv in H. by vm_compute in H.
Qed.

(** C10.  A line whose [#] comes after leading white space and which has
    no [=] is not skipped as a comment: the loop fails with
    [inValidLine], whatever it has parsed before and whatever follows. *)
Theorem indented_comment_is_invalid_line (n : nat) envVars
    (ws tail : str) scanner :
  ws ≠ [] → TrimSpace ws = [] → equals ∉ ws ++ hash :: tail →
  parseLoop (S n) envVars ((ws ++ hash :: tail) :: scanner)
  = Some (Fail inValidLine)
  ∧ Parse ((ws ++ hash :: tail) :: scanner) = Some (Fail inValidLine).
Proof.
  intros Hws Hsp Heq.
  assert (HasPrefix (ws ++ hash :: tail) "#" = false) as H1.
  { destruct ws as [|c ws]; [done|]. change (s2l "#") with [hash].
    simpl. rewrite HasPrefix_byte. apply eqb_neq. intros <-.
    apply TrimSpace_nil_bytes, Forall_inv in Hsp. by vm_compute in Hsp. }
  assert (TrimSpace (ws ++ hash :: tail) ≠ []) as H2.
  { intros Hnil.
    pose proof (TrimSpace_keeps hash (ws ++ hash :: tail)) as Hin.
    rewrite Hnil in Hin. eapply elem_of_nil, Hin; [|by vm_compute].
    apply elem_of_app. right. by left. }
  split; by apply parseLoop_no_equals.
Qed.

Lemma indented_comment_is_invalid_line_witness :
  s2l "  " ≠ [] ∧ TrimSpace "  " = [] ∧ (equals ∉ ("  " ++ hash :: " note" : str))
  ∧ Parse [s2l "  # note"; s2l "A=1"] = Some (Fail inValidLine).
Proof.
  assert (s2l "  " ≠ []) as H1 by done.
  assert (TrimSpace "  " = []) as H2 by (by vm_compute).
  assert (equals ∉ ("  " ++ hash :: " note" : str)) as H3 by compute_done.
  split; [exact H1|]. split; [exact H2|]. split; [exact H3|].
  exact (proj2 (indented_comment_is_invalid_line 0 ∅ "  " " note" [s2l "A=1"]
                  H1 H2 H3)).
Defined.

(** ** Values *)

(** C4.  The loop returns as soon as a line ends with the marker, before
    the marker is stripped and before anything of that line is appended:
    the content in front of the closing marker is lost. *)
Theorem content_before_closing_marker_is_dropped :
  Parse ["K=" ++ tripleD; s2l "a"; "b" ++ tripleD]
  = Some (Return {[ s2l "K" := s2l "a" ]})
  ∧ Parse ["K=" ++ tripleD; s2l "a"; s2l "b"; tripleD]
    = Some (Return {[ s2l "K" := "a" ++ LF :: "b" ]}).
Proof. split; by vm_compute. Qed.




(** C7.  A double-quoted value does not always come out substituted and
    escape-decoded: the callback of the substitution slices every match
    as [match[2:len(match)-1]], so on [K="$5"] it panics and the parse
    crashes, while the single-quoted [K='$5'] keeps its text.  Where the
    substitution returns the asymmetry is as the claim says: between
    double quotes [${A}] is replaced and [\t], [\q] are decoded, between
    single quotes the same text is kept byte for byte. *)
Theorem double_quoted_value_may_panic :
  Parse ["K=" ++ dquote :: "$5" ++ [dquote]] = Some Panic
  ∧ Parse [s2l "K='$5'"] = Some (Return {[ s2l "K" := s2l "$5" ]})
  ∧ Parse [s2l "A=1"; "K=" ++ dquote :: "${A}\tb\q" ++ [dquote]]
    = Some (Return {[ s2l "A" := s2l "1"; s2l "K" := "1" ++ TAB :: "bq" ]})
  ∧ Parse [s2l "A=1"; s2l "K='${A}\tb\q'"]
    = Some (Return {[ s2l "A" := s2l "1"; s2l "K" := s2l "${A}\tb\q" ]})
  ∧ Parse [s2l "K='a $(B) \n'"] = Some (Return {[ s2l "K" := s2l "a $(B) \n" ]})
  ∧ Parse ["K=" ++ dquote :: "line1\nline2" ++ [dquote]]
    = Some (Return {[ s2l "K" := "line1" ++ LF :: "line2" ]}).
Proof. repeat split; by vm_compute. Qed.

(** Once its closing quote is found and what follows is blank or a
    comment, a single-quoted value is returned as it stands, without
    substitution and without escape decoding, while a double-quoted value
    is substituted and then escape-decoded, and panics where the
    substitution does. *)
Lemma quote_kind_asymmetry (q : ascii) (content trailing : str)
    scanner envVars :
  q = squote ∨ q = dquote →
  isMultiLine (q :: content ++ q :: trailing) = false →
  closingQuote q q (content ++ q :: trailing) = Some (length content) →
  commentOrBlank trailing →
  extractValue (q :: content ++ q :: trailing) scanner envVars
  = (if eqb q squote then Return (content, scanner)
     else match substituteVariables content envVars with
          | Some v => Return (parseEscape v, scanner)
          | None => Panic
          end)
  ∧ Parse [s2l "K='a $(B) \n'"] = Some (Return {[ s2l "K" := s2l "a $(B) \n" ]})
  ∧ Parse ["K=" ++ dquote :: "line1\nline2" ++ [dquote]]
    = Some (Return {[ s2l "K" := "line1" ++ LF :: "line2" ]}).
Proof.
  intros Hq Hml Hclose Htrail. split; [|split; by vm_compute].
  destruct Hq as [-> | ->].
  - rewrite extractValue_squote, Hclose by done.
    rewrite take_app_length.
    rewrite drop_past.
    by rewrite checkRemaining_ok.
  - rewrite extractValue_dquote, Hclose by done.
    rewrite take_app_length.
    rewrite drop_past.
    change (eqb dquote squote) with false. cbv iota.
    destruct (substituteVariables content envVars); [|done].
    by rewrite checkRemaining_ok.
Qed.

(** C8.  A triple-double-quoted value that is never closed is not always
    reported as [unterminatedMultiLine]: its lines are substituted as they
    are read, and a [$] that starts a match of fewer than three bytes makes
    the callback panic before the end of the input is seen. *)
Theorem unterminated_multiline_may_panic :
  Parse ["K=" ++ tripleD; s2l "costs $5"] = Some Panic
  ∧ Parse ["K=" ++ tripleD; s2l "costs 5"]
    = Some (Fail (valueError "K" unterminatedMultiLine))
  ∧ Parse ["K=" ++ tripleS; s2l "costs $5"]
    = Some (Fail (valueError "K" unterminatedMultiLine)).
Proof. repeat split; by vm_compute. Qed.

(** C9.  Text after the closing quote of a double-quoted value is not
    always reported as [unexpectedCharacters]: the content is substituted
    before the trailing text is looked at, and the substitution can
    panic. *)
Theorem trailing_text_check_may_panic :
  Parse ["K=" ++ dquote :: "$5" ++ dquote :: "bogus"] = Some Panic
  ∧ Parse ["K=" ++ dquote :: "$5" ++ dquote :: " # note"] = Some Panic
  ∧ Parse ["K=" ++ dquote :: "5" ++ dquote :: "bogus"]
    = Some (Fail (valueError "K" unexpectedCharacters))
  ∧ Parse ["K=" ++ squote :: "$5" ++ squote :: "bogus"]
    = Some (Fail (valueError "K" unexpectedCharacters)).
Proof. repeat split; by vm_compute. Qed.

End claims.

(** * Further properties of the package *)
Section extras.
Import strings regexp dotenv.

Implicit Types (envVars : gmap str str) (scanner : list str).

(** ** Escapes and substitution *)

(** X1.  The two regular-expression passes of [parseEscape] amount to one
    pass from left to right: a backslash followed by [n], [r], [t], [f] or
    [b] becomes the control character, a backslash followed by [$] stays
    as it is, a backslash followed by any other byte leaves that byte, and
    a backslash at the very end stays.  Decoding never makes the text
    longer. *)
Theorem parseEscape_one_pass (s : str) :
  parseEscape s = decodeEscapes s ∧ length (parseEscape s) ≤ length s.
Proof.
  rewrite parseEscape_decodeEscapes. split; [done|].
  induction s as [s IH] using shorter_ind.
  destruct s as [|c s]; [done|]. simpl.
  destruct (eqb c bslash).
  - destruct s as [|d s]; [done|]. rewrite length_app.
    specialize (IH s ltac:(simpl; lia)).
    assert (length (escapeOf d) ≤ 2); [|simpl; lia].
    unfold escapeOf. repeat case_match; simpl; lia.
  - specialize (IH s ltac:(simpl; lia)). simpl. lia.
Qed.

(** X2.  A [$] that is followed by nothing the pattern can take (the end of
    the text, a blank, a lower-case letter, ...) makes
    [substituteVariables] panic, wherever it stands and whatever the
    mapping: the match is [$] or [\$], too short for
    [match[2:len(match)-1]]. *)
Theorem dollar_without_name_panics (pre rest : str) envVars :
  match rest with
  | [] => True
  | c :: _ => c ≠ "("%char ∧ c ≠ "{"%char ∧ c ≠ "}"%char ∧ upperNum_ c = false
  end →
  substituteVariables (pre ++ dollar :: rest) envVars = None.
Proof.
  intros Hrest. pose proof (afterDollar_none rest Hrest) as Hafter.
  assert (substituteVariables (dollar :: rest) envVars = None) as Hd.
  { apply (substitute_short_match [dollar] rest); [simpl; lia|].
    change ([dollar] ++ rest) with (dollar :: rest). unfold matchAt.
    rewrite substituteVarRegex_rmatch. cbn [eqb]. eval_bytes. rewrite Hafter.
    simpl. f_equal. lia. }
  assert (substituteVariables (bslash :: dollar :: rest) envVars = None) as Hb.
  { apply (substitute_short_match [bslash; dollar] rest); [simpl; lia|].
    change ([bslash; dollar] ++ rest) with (bslash :: dollar :: rest).
    unfold matchAt. rewrite substituteVarRegex_rmatch. eval_bytes.
    rewrite Hafter. simpl. f_equal. lia. }
  destruct pre as [|c pre _] using rev_ind.
  { done. }
  destruct (decide (c = bslash)) as [->|Hc].
  - rewrite <- app_assoc. simpl.
    rewrite substitute_before_token; [|by right|done].
    rewrite Hb. by destruct (substituteVariables pre envVars).
  - rewrite substitute_before_token; [|by left|].
    + rewrite Hd. by destruct (substituteVariables (pre ++ [c]) envVars).
    + rewrite last_snoc. congruence.
Qed.

Lemma dollar_without_name_panics_witness :
  (" "%char ≠ "("%char ∧ " "%char ≠ "{"%char ∧ " "%char ≠ "}"%char
   ∧ upperNum_ " " = false)
  ∧ substituteVariables ("costs " ++ dollar :: " now") ∅ = None.
Proof.
  assert (" "%char ≠ "("%char ∧ " "%char ≠ "{"%char ∧ " "%char ≠ "}"%char
          ∧ upperNum_ " " = false) as H by by repeat split.
  split; [exact H|].
  exact (dollar_without_name_panics "costs " " now" ∅ H).
Defined.

(** X3.  [Parse] does not panic on input without [$]: it returns a mapping
    or an error. *)
Theorem Parse_without_dollar_returns (envFile : list str) :
  Forall (λ line : str, dollar ∉ line) envFile →
  ∃ r, Parse envFile = Some r ∧ r ≠ Panic.
Proof.
  intros H. destruct (Parse_total envFile) as [r Hr]. exists r.
  split; [done|]. intros ->. by eapply parseLoop_no_panic.
Qed.

Lemma Parse_without_dollar_returns_witness :
  Forall (λ line : str, dollar ∉ line) [s2l "A=1"; s2l "oops"]
  ∧ ∃ r, Parse [s2l "A=1"; s2l "oops"] = Some r ∧ r ≠ Panic.
Proof.
  assert (Forall (λ line : str, dollar ∉ line) [s2l "A=1"; s2l "oops"]) as H.
  { repeat constructor; compute_done. }
  split; [exact H|]. exact (Parse_without_dollar_returns _ H).
Defined.

(** ** The line loop *)



(** X5.  Every key of the mapping [Parse] returns starts with a letter or
    an underscore, holds no [=], and has no white space at either end; in
    particular no key is empty. *)
Theorem Parse_keys_wellformed (envFile : list str) (m : gmap str str) (key : str) :
  Parse envFile = Some (Return m) → is_Some (m !! key) → storedKey key.
Proof.
  intros H. revert key. eapply parseLoop_keys; [|exact H].
  intros key [x Hx]. by rewrite lookup_empty in Hx.
Qed.

Lemma Parse_keys_wellformed_witness :
  Parse [s2l " A-B = 1"] = Some (Return {[ s2l "A-B" := s2l "1" ]})
  ∧ is_Some (({[ s2l "A-B" := s2l "1" ]} : gmap str str) !! s2l "A-B")
  ∧ storedKey "A-B".
Proof.
  assert (Parse [s2l " A-B = 1"] = Some (Return {[ s2l "A-B" := s2l "1" ]}))
    as H1 by by vm_compute.
  assert (is_Some (({[ s2l "A-B" := s2l "1" ]} : gmap str str) !! s2l "A-B"))
    as H2 by by vm_compute; eexists.
  split; [exact H1|]. split; [exact H2|].
  exact (Parse_keys_wellformed _ _ _ H1 H2).
Defined.

(** X6.  An unquoted value without [#], [$] and backslash is stored as it
    is written, trimmed of the white space around it, and the loop goes on
    with the next line. *)
Theorem plain_value_is_trimmed (n : nat) envVars (key v : str) scanner :
  isKey key → hash ∉ v → dollar ∉ v → bslash ∉ v →
  head v ≠ Some squote → head v ≠ Some dquote →
  parseLoop (S n) envVars ((key ++ equals :: v) :: scanner)
  = parseLoop n (<[key := TrimSpace v]> envVars) scanner.
Proof.
  intros Hk Hh Hd Hb Hs Hq. rewrite parseLoop_assign by done.
  rewrite extractValue_unquoted by done. rewrite Split_absent by done. simpl.
  rewrite substitute_plain_all.
  2:{ intros Hin. by apply TrimSpace_subseteq in Hin. }
  rewrite parseEscape_plain; [done|].
  intros Hin. by apply TrimSpace_subseteq in Hin.
Qed.

Lemma plain_value_is_trimmed_witness :
  isKey "KEY" ∧ (hash ∉ s2l " some value ") ∧ (dollar ∉ s2l " some value ")
  ∧ (bslash ∉ s2l " some value ")
  ∧ head (s2l " some value ") ≠ Some squote
  ∧ head (s2l " some value ") ≠ Some dquote
  ∧ Parse [s2l "KEY= some value "]
    = Some (Return {[ s2l "KEY" := s2l "some value" ]}).
Proof.
  assert (isKey "KEY") as H1.
  { exists "K"%char, (s2l "EY"). split; [done|]. split; [done|].
    by repeat constructor. }
  assert (hash ∉ s2l " some value ") as H2 by compute_done.
  assert (dollar ∉ s2l " some value ") as H3 by compute_done.
  assert (bslash ∉ s2l " some value ") as H4 by compute_done.
  assert (head (s2l " some value ") ≠ Some squote) as H5 by done.
  assert (head (s2l " some value ") ≠ Some dquote) as H6 by done.
  repeat (split; [assumption|]).
  change (Parse [s2l "KEY= some value "])
    with (parseLoop (S 1) ∅ [s2l "KEY" ++ equals :: " some value "]).
  rewrite (plain_value_is_trimmed 1 ∅ "KEY" " some value " [] H1 H2 H3 H4 H5 H6).
  by vm_compute.
Defined.

(** X7.  The prefix [export ] is dropped: a line that is no comment, not
    blank and does not itself start with [export ] is parsed the same
    with and without it. *)
Theorem export_prefix_is_dropped (n : nat) envVars (line : str) scanner :
  HasPrefix line "#" = false → TrimSpace line ≠ [] →
  HasPrefix line "export " = false →
  parseLoop (S n) envVars (("export " ++ line) :: scanner)
  = parseLoop (S n) envVars (line :: scanner).
Proof. apply parseLoop_export. Qed.

Lemma export_prefix_is_dropped_witness :
  HasPrefix "A=1" "#" = false ∧ TrimSpace "A=1" ≠ []
  ∧ HasPrefix "A=1" "export " = false
  ∧ Parse [s2l "export A=1"] = Parse [s2l "A=1"].
Proof.
  assert (HasPrefix "A=1" "#" = false) as H1 by by vm_compute.
  assert (TrimSpace "A=1" ≠ []) as H2 by by vm_compute.
  assert (HasPrefix "A=1" "export " = false) as H3 by by vm_compute.
  repeat (split; [assumption|]).
  exact (export_prefix_is_dropped 1 ∅ "A=1" [] H1 H2 H3).
Defined.

(** X8.  Comment lines (a [#] as first byte) and blank lines in front of
    the input change nothing. *)
Theorem leading_comments_are_skipped (pre envFile : list str) :
  Forall skipped pre → Parse (pre ++ envFile) = Parse envFile.
Proof.
  intros H. induction H as [|line pre Hline _ IH]; [done|].
  rewrite <- IH. unfold Parse. rewrite <- app_comm_cons. cbn [length].
  by rewrite parseLoop_skip.
Qed.

Lemma leading_comments_are_skipped_witness :
  Forall skipped [s2l "# settings"; s2l "   "]
  ∧ Parse ([s2l "# settings"; s2l "   "] ++ [s2l "A=1"]) = Parse [s2l "A=1"].
Proof.
  assert (Forall skipped [s2l "# settings"; s2l "   "]) as H.
  { constructor; [by left|]. constructor; [by right|]. constructor. }
  split; [exact H|]. exact (leading_comments_are_skipped _ [s2l "A=1"] H).
Defined.

(** X9.  A later assignment to a key replaces the earlier value; the
    earlier value is still there for the substitution of the later one. *)
Theorem later_assignment_overwrites (n : nat) envVars (key v1 v2 x1 : str)
    scanner :
  isKey key →
  extractValue v1 ((key ++ equals :: v2) :: scanner) envVars
  = Return (x1, (key ++ equals :: v2) :: scanner) →
  parseLoop (S (S n)) envVars
    ((key ++ equals :: v1) :: (key ++ equals :: v2) :: scanner)
  = match extractValue v2 scanner (<[key := x1]> envVars) with
    | Fail err => Some (Fail (valueError key err))
    | Panic => Some Panic
    | Return (x2, scanner') => parseLoop n (<[key := x2]> envVars) scanner'
    end.
Proof.
  intros Hk H1. rewrite parseLoop_assign, H1 by done.
  rewrite parseLoop_assign by done.
  destruct (extractValue v2 scanner _) as [[x2 scanner']| |]; try done.
  by rewrite insert_insert_eq.
Qed.

Lemma later_assignment_overwrites_witness :
  isKey "K"
  ∧ extractValue "1" [s2l "K=${K}2"] ∅ = Return (s2l "1", [s2l "K=${K}2"])
  ∧ Parse [s2l "K=1"; s2l "K=${K}2"] = Some (Return {[ s2l "K" := s2l "12" ]}).
Proof.
  assert (isKey "K") as H1.
  { exists "K"%char, []. by repeat split. }
  assert (extractValue "1" [s2l "K=${K}2"] ∅ = Return (s2l "1", [s2l "K=${K}2"]))
    as H2 by by vm_compute.
  split; [exact H1|]. split; [exact H2|].
  change (Parse [s2l "K=1"; s2l "K=${K}2"])
    with (parseLoop (S (S 1)) ∅
            [s2l "K" ++ equals :: "1"; s2l "K" ++ equals :: "${K}2"]).
  rewrite (later_assignment_overwrites 1 ∅ "K" "1" "${K}2" "1" [] H1 H2).
  by vm_compute.
Defined.

(** X10.  A line that is neither a comment nor blank and holds no [=]
    fails with [inValidLine]; the lines behind it are not looked at, and
    the mapping built so far is dropped. *)
Theorem line_without_equals_is_invalid (n : nat) envVars (line : str) scanner :
  HasPrefix line "#" = false → TrimSpace line ≠ [] → (equals ∉ line) →
  parseLoop (S n) envVars (line :: scanner) = Some (Fail inValidLine)
  ∧ Is inValidLine inValidLine = true.
Proof. intros H1 H2 H3. split; [by apply parseLoop_no_equals|done]. Qed.

Lemma line_without_equals_is_invalid_witness :
  HasPrefix "export A" "#" = false ∧ TrimSpace "export A" ≠ []
  ∧ (equals ∉ s2l "export A")
  ∧ parseLoop 2 {[ s2l "B" := s2l "1" ]} [s2l "export A"; s2l "C=2"]
    = Some (Fail inValidLine).
Proof.
  assert (HasPrefix "export A" "#" = false) as H1 by by vm_compute.
  assert (TrimSpace "export A" ≠ []) as H2 by by vm_compute.
  assert (equals ∉ s2l "export A") as H3 by compute_done.
  repeat (split; [assumption|]).
  exact (proj1 (line_without_equals_is_invalid 1 _ "export A" [s2l "C=2"]
                  H1 H2 H3)).
Defined.

(** X11.  The only test of a key is on the first byte of the text before
    the first [=], trimmed: a letter or an underscore lets the line
    through with that trimmed text as the key, whatever bytes follow;
    anything else, and the empty key, fails with [inValidKey] naming the
    key. *)
Theorem key_is_tested_on_first_byte (n : nat) envVars (k v : str) scanner :
  (equals ∉ k) → HasPrefix (k ++ equals :: v) "#" = false →
  HasPrefix (k ++ equals :: v) "export " = false →
  parseLoop (S n) envVars ((k ++ equals :: v) :: scanner)
  = if match head (TrimSpace k) with Some c => letter_ c | None => false end
    then match extractValue v scanner envVars with
         | Fail err => Some (Fail (valueError (TrimSpace k) err))
         | Panic => Some Panic
         | Return (val, scanner') =>
             parseLoop n (<[TrimSpace k := val]> envVars) scanner'
         end
    else Some (Fail (invalidKeyError (TrimSpace k))).
Proof.
  intros Hk Hc He. rewrite parseLoop_cons, Hc.
  rewrite bool_decide_eq_false_2.
  2:{ intros Hlen. apply nil_length_inv in Hlen.
      pose proof (TrimSpace_keeps equals (k ++ equals :: v)) as Hin.
      rewrite Hlen in Hin. eapply elem_of_nil, Hin; [|done].
      apply elem_of_app. right. by left. }
  cbn [orb]. unfold TrimPrefix. rewrite He, SplitN_first by done.
  destruct (MatchString keyRegex (TrimSpace k)) eqn:Hm.
  - apply keyRegex_first_byte in Hm as (c & key' & E & Hl).
    rewrite E. simpl. by rewrite Hl.
  - replace (match head (TrimSpace k) with
             | Some c => letter_ c | None => false end) with false; [done|].
    destruct (TrimSpace k) as [|c key'] eqn:E; [done|]. simpl.
    destruct (letter_ c) eqn:Hl; [|done].
    rewrite (proj2 (keyRegex_first_byte (c :: key'))) in Hm by eauto. done.
Qed.

Lemma key_is_tested_on_first_byte_witness :
  (equals ∉ s2l " my key ") ∧ HasPrefix (s2l " my key " ++ equals :: "1") "#" = false
  ∧ HasPrefix (s2l " my key " ++ equals :: "1") "export " = false
  ∧ Parse [s2l " my key =1"] = Some (Return {[ s2l "my key" := s2l "1" ]}).
Proof.
  assert (equals ∉ s2l " my key ") as H1 by compute_done.
  assert (HasPrefix (s2l " my key " ++ equals :: "1") "#" = false) as H2
    by by vm_compute.
  assert (HasPrefix (s2l " my key " ++ equals :: "1") "export " = false) as H3
    by by vm_compute.
  repeat (split; [assumption|]).
  change (Parse [s2l " my key =1"])
    with (parseLoop (S 1) ∅ [s2l " my key " ++ equals :: "1"]).
  rewrite (key_is_tested_on_first_byte 1 ∅ " my key " "1" [] H1 H2 H3).
  by vm_compute.
Defined.

(** ** Quoted values *)

(** X12.  A value opened with three single quotes takes the following
    lines up to, and not including, the first line that ends in three
    single quotes: each is escape-decoded and they are joined by line
    feeds.  The text behind the opening marker and the whole closing line
    are left out, and the loop goes on behind the closing line. *)
Theorem triple_single_quoted_block (n : nat) envVars (key t : str)
    (before : list str) (closing : str) (after : list str) :
  isKey key →
  Forall (λ line, HasSuffix line tripleS = false) before →
  HasSuffix closing tripleS = true →
  parseLoop (S n) envVars
    ((key ++ equals :: tripleS ++ t) :: before ++ closing :: after)
  = parseLoop n (<[key := joinLines (map parseEscape before)]> envVars) after.
Proof.
  intros Hk Hb Hc. rewrite parseLoop_assign by done.
  rewrite extractValue_tripleS, (multiLineLoop_tripleS [] before closing after)
    by done.
  by rewrite app_nil_l, TrimSuffix_decodedLines.
Qed.

Lemma triple_single_quoted_block_witness :
  isKey "K"
  ∧ Forall (λ line, HasSuffix line tripleS = false) [s2l "a\tb $X"; s2l "c"]
  ∧ HasSuffix "gone'''" tripleS = true
  ∧ parseLoop 5 ∅ [s2l "K='''gone"; s2l "a\tb $X"; s2l "c"; s2l "gone'''";
                   s2l "B=2"]
    = Some (Return {[ s2l "K" := s2l "a" ++ TAB :: s2l "b $X" ++ LF :: s2l "c";
                      s2l "B" := s2l "2" ]}).
Proof.
  assert (isKey "K") as H1.
  { exists "K"%char, []. by repeat split. }
  assert (Forall (λ line, HasSuffix line tripleS = false)
                 [s2l "a\tb $X"; s2l "c"]) as H2.
  { by repeat constructor. }
  assert (HasSuffix "gone'''" tripleS = true) as H3 by by vm_compute.
  repeat (split; [assumption|]).
  change (parseLoop 5 ∅ [s2l "K='''gone"; s2l "a\tb $X"; s2l "c";
                         s2l "gone'''"; s2l "B=2"])
    with (parseLoop (S 4) ∅
            ((s2l "K" ++ equals :: tripleS ++ s2l "gone")
               :: [s2l "a\tb $X"; s2l "c"] ++ s2l "gone'''" :: [s2l "B=2"])).
  rewrite (triple_single_quoted_block 4 ∅ "K" "gone" _ _ _ H1 H2 H3).
  by vm_compute.
Defined.

(** X13.  A value opened with three double quotes does the same with the
    lines substituted before they are decoded; the mapping used is the one
    built before this assignment. *)
Theorem triple_double_quoted_block (n : nat) envVars (key t : str)
    (before substituted : list str) (closing : str) (after : list str) :
  isKey key →
  Forall (λ line, HasSuffix line tripleD = false) before →
  Forall2 (λ line out, substituteVariables line envVars = Some out)
          before substituted →
  HasSuffix closing tripleD = true →
  parseLoop (S n) envVars
    ((key ++ equals :: tripleD ++ t) :: before ++ closing :: after)
  = parseLoop n (<[key := joinLines (map parseEscape substituted)]> envVars)
      after.
Proof.
  intros Hk Hb Hs Hc. rewrite parseLoop_assign by done.
  rewrite extractValue_tripleD,
    (multiLineLoop_tripleD [] before substituted closing after) by done.
  by rewrite app_nil_l, TrimSuffix_decodedLines.
Qed.

Lemma triple_double_quoted_block_witness :
  isKey "K"
  ∧ Forall (λ line, HasSuffix line tripleD = false) [s2l "a ${A}"; s2l "c"]
  ∧ Forall2 (λ line out,
       substituteVariables line ({[ s2l "A" := s2l "1" ]} : gmap str str)
       = Some out)
      [s2l "a ${A}"; s2l "c"] [s2l "a 1"; s2l "c"]
  ∧ HasSuffix tripleD tripleD = true
  ∧ parseLoop 4 {[ s2l "A" := s2l "1" ]}
      [s2l "K" ++ equals :: tripleD; s2l "a ${A}"; s2l "c"; tripleD]
    = Some (Return {[ s2l "A" := s2l "1";
                      s2l "K" := s2l "a 1" ++ LF :: s2l "c" ]}).
Proof.
  assert (isKey "K") as H1.
  { exists "K"%char, []. by repeat split. }
  assert (Forall (λ line, HasSuffix line tripleD = false)
                 [s2l "a ${A}"; s2l "c"]) as H2.
  { by repeat constructor. }
  assert (Forall2 (λ line out,
       substituteVariables line ({[ s2l "A" := s2l "1" ]} : gmap str str)
       = Some out)
      [s2l "a ${A}"; s2l "c"] [s2l "a 1"; s2l "c"]) as H3.
  { repeat constructor; by vm_compute. }
  assert (HasSuffix tripleD tripleD = true) as H4 by by vm_compute.
  repeat (split; [assumption|]).
  change (parseLoop 4 {[ s2l "A" := s2l "1" ]}
            [s2l "K" ++ equals :: tripleD; s2l "a ${A}"; s2l "c"; tripleD])
    with (parseLoop (S 3) {[ s2l "A" := s2l "1" ]}
            ((s2l "K" ++ equals :: tripleD ++ [])
               :: [s2l "a ${A}"; s2l "c"] ++ tripleD :: [])).
  rewrite (triple_double_quoted_block 3 _ "K" [] _ _ _ _ H1 H2 H3 H4).
  by vm_compute.
Defined.

(** X14.  A value that opens with a quote and in which every further quote
    of that kind stands right behind a backslash fails with
    [unterminatedQuote], whatever else the line and the rest of the input
    hold. *)
Theorem unclosed_quote_is_reported (n : nat) envVars (key : str) (q : ascii)
    (body : str) scanner :
  isKey key → q = squote ∨ q = dquote →
  (∀ i, body !! i = Some q → (q :: body) !! i = Some bslash) →
  parseLoop (S n) envVars ((key ++ equals :: q :: body) :: scanner)
  = Some (Fail (valueError key unterminatedQuote))
  ∧ Is (valueError key unterminatedQuote) unterminatedQuote = true.
Proof.
  intros Hk Hq H. split; [|apply Is_valueError].
  apply parseLoop_unterminated_quote; [done..| |by apply closingQuote_None].
  apply isMultiLine_escaped; [done|]. by destruct Hq as [-> | ->].
Qed.

Lemma unclosed_quote_is_reported_witness :
  isKey "K" ∧ (squote = squote ∨ squote = dquote)
  ∧ (∀ i, (s2l "a\' # b") !! i = Some squote
          → (squote :: s2l "a\' # b") !! i = Some bslash)
  ∧ Parse [s2l "K='a\' # b"]
    = Some (Fail (valueError "K" unterminatedQuote)).
Proof.
  assert (isKey "K") as H1.
  { exists "K"%char, []. by repeat split. }
  assert (squote = squote ∨ squote = dquote) as H2 by by left.
  assert (∀ i, (s2l "a\' # b") !! i = Some squote
               → (squote :: s2l "a\' # b") !! i = Some bslash) as H3.
  { intros i. do 7 (destruct i as [|i]; [by vm_compute|]). by vm_compute. }
  repeat (split; [assumption|]).
  exact (proj1 (unclosed_quote_is_reported 1 ∅ "K" squote _ [] H1 H2 H3)).
Defined.

(** X15.  Text behind the closing quote that is neither blank nor a
    comment fails with [unexpectedCharacters]: for content that holds no
    quote of its kind and does not end in a backslash, and, between double
    quotes, on which the substitution returns. *)
Theorem text_after_closing_quote_is_rejected (n : nat) envVars (key : str)
    (q : ascii) (content trailing : str) scanner :
  isKey key → q = squote ∨ q = dquote →
  (q ∉ content) → last content ≠ Some bslash →
  (content = [] → head trailing ≠ Some q) →
  (q = dquote → is_Some (substituteVariables content envVars)) →
  ¬ commentOrBlank trailing →
  parseLoop (S n) envVars
    ((key ++ equals :: q :: content ++ q :: trailing) :: scanner)
  = Some (Fail (valueError key unexpectedCharacters))
  ∧ Is (valueError key unexpectedCharacters) unexpectedCharacters = true.
Proof.
  intros Hk Hq Hin Hlast Hhead Hsub Htr. split; [|apply Is_valueError].
  pose proof (isMultiLine_quoted q content trailing Hin Hhead) as Hm.
  destruct Hq as [-> | ->].
  - apply parseLoop_trailing_text_squote; [done..| |done].
    by apply closingQuote_content.
  - destruct (Hsub eq_refl) as [out Hout].
    eapply parseLoop_trailing_text_dquote; [done..| |done|done].
    by apply closingQuote_content.
Qed.

Lemma text_after_closing_quote_is_rejected_witness :
  isKey "K" ∧ (squote = squote ∨ squote = dquote)
  ∧ (squote ∉ s2l "$5") ∧ last (s2l "$5") ≠ Some bslash
  ∧ (s2l "$5" = [] → head (s2l " x") ≠ Some squote)
  ∧ (squote = dquote → is_Some (substituteVariables "$5" ∅))
  ∧ ¬ commentOrBlank " x"
  ∧ Parse [s2l "K='$5' x"]
    = Some (Fail (valueError "K" unexpectedCharacters)).
Proof.
  assert (isKey "K") as H1.
  { exists "K"%char, []. by repeat split. }
  assert (squote = squote ∨ squote = dquote) as H2 by by left.
  assert (squote ∉ s2l "$5") as H3 by compute_done.
  assert (last (s2l "$5") ≠ Some bslash) as H4 by done.
  assert (s2l "$5" = [] → head (s2l " x") ≠ Some squote) as H5 by done.
  assert (squote = dquote → is_Some (substituteVariables "$5" ∅)) as H6 by done.
  assert (¬ commentOrBlank " x") as H7.
  { intros [H|H]; by vm_compute in H. }
  repeat (split; [assumption|]).
  exact (proj1 (text_after_closing_quote_is_rejected 1 ∅ "K" squote "$5" " x"
                  [] H1 H2 H3 H4 H5 H6 H7)).
Defined.

(** X16.  The loop over a quoted value stops the content at the first
    quote of the opening kind that does not stand right behind a
    backslash: what is before it is the content, what is behind it,
    trimmed, is the remaining text. *)
Theorem quote_closes_at_first_unescaped (q : ascii) (body : str) (j : nat) :
  body !! j = Some q → (q :: body) !! j ≠ Some bslash →
  (∀ i, i < j → body !! i = Some q → (q :: body) !! i = Some bslash) →
  quoteLoop (length (q :: body)) 1 q (q :: body) []
  = (take j body, TrimSpace (drop (S j) body)).
Proof.
  intros Hj Hb Hfirst. rewrite quoteLoop_spec.
  replace (closingQuote q q body) with (Some j); [done|].
  symmetry. apply closingQuote_Some. split; [done|]. split; [done|].
  intros i Hi [Hq Hn]. by apply Hn, Hfirst.
Qed.

Lemma quote_closes_at_first_unescaped_witness :
  (s2l "a\'b' c'") !! 4 = Some squote
  ∧ (squote :: s2l "a\'b' c'") !! 4 ≠ Some bslash
  ∧ (∀ i, i < 4 → (s2l "a\'b' c'") !! i = Some squote
          → (squote :: s2l "a\'b' c'") !! i = Some bslash)
  ∧ quoteLoop 9 1 squote (squote :: s2l "a\'b' c'") []
    = (s2l "a\'b", s2l "c'").
Proof.
  assert ((s2l "a\'b' c'") !! 4 = Some squote) as H1 by done.
  assert ((squote :: s2l "a\'b' c'") !! 4 ≠ Some bslash) as H2 by done.
  assert (∀ i, i < 4 → (s2l "a\'b' c'") !! i = Some squote
               → (squote :: s2l "a\'b' c'") !! i = Some bslash) as H3.
  { intros i Hi. do 4 (destruct i as [|i]; [by vm_compute|]). lia. }
  repeat (split; [assumption|]).
  exact (quote_closes_at_first_unescaped squote _ 4 H1 H2 H3).
Defined.

(** X17.  [extractValue] reads further lines from the scanner only for a
    value that opens with a triple quote, and then at least one; what it
    leaves is a tail of what it was given. *)
Theorem extractValue_scanner_moves (val : str) scanner envVars (out : str)
    (scanner' : list str) :
  extractValue val scanner envVars = Return (out, scanner') →
  scanner' `suffix_of` scanner
  ∧ (if isMultiLine val then length scanner' < length scanner
     else scanner' = scanner).
Proof. apply extractValue_suffix. Qed.

Lemma extractValue_scanner_moves_witness :
  extractValue tripleS [s2l "a"; tripleS; s2l "B=2"] ∅
  = Return (s2l "a", [s2l "B=2"])
  ∧ [s2l "B=2"] `suffix_of` [s2l "a"; tripleS; s2l "B=2"]
  ∧ (if isMultiLine tripleS then length [s2l "B=2"] < 3
     else [s2l "B=2"] = [s2l "a"; tripleS; s2l "B=2"]).
Proof.
  assert (extractValue tripleS [s2l "a"; tripleS; s2l "B=2"] ∅
          = Return (s2l "a", [s2l "B=2"])) as H by by vm_compute.
  split; [exact H|]. exact (extractValue_scanner_moves _ _ _ _ _ H).
Defined.

(** ** Files and the environment *)

(** X18.  [Read] fails with [inValidFileExtension], naming the file, at
    the first file name that does not end in [.env]; the file is not
    opened, nor is any file behind it. *)
Theorem Read_refuses_other_extensions (open : str → error + list str)
    (first : list str) (filename : str) (rest : list str) (m : gmap str str) :
  ¬ (s2l ".env" `suffix_of` filename) →
  Read open first = Some (Return m) →
  (∀ open', (∀ f, f ∈ first → open' f = open f) →
     Read open' (first ++ filename :: rest)
     = Some (Fail (invalidExtensionError filename)))
  ∧ Is (invalidExtensionError filename) inValidFileExtension = true.
Proof.
  intros Hext Hfirst. split; [|done].
  intros open' Hopen. rewrite Read_app.
  assert (∀ envVars, readLoop open' envVars first = readLoop open envVars first)
    as Hsame.
  { clear Hfirst. induction first as [|f first IH]; intros envVars; [done|].
    simpl. rewrite Hopen by by left.
    destruct (negb _); [done|]. destruct (open f); [done|].
    destruct (Parse _) as [[vars| |]|]; try done.
    apply IH. intros g Hg. apply Hopen. by right. }
  unfold Read at 1. rewrite Hsame. fold (Read open first). rewrite Hfirst.
  unfold Read. simpl.
  rewrite bool_decide_eq_false_2; [done|]. by rewrite Ext_env.
Qed.

Lemma Read_refuses_other_extensions_witness :
  ¬ (s2l ".env" `suffix_of` s2l "b.env.bak")
  ∧ Read (λ _, inr [s2l "A=1"]) [s2l "a.env"]
    = Some (Return {[ s2l "A" := s2l "1" ]})
  ∧ Read (λ _, inr [s2l "A=1"]) [s2l "a.env"; s2l "b.env.bak"; s2l "c.env"]
    = Some (Fail (invalidExtensionError "b.env.bak")).
Proof.
  assert (¬ (s2l ".env" `suffix_of` s2l "b.env.bak")) as H1.
  { rewrite <- Ext_env. by vm_compute. }
  assert (Read (λ _, inr [s2l "A=1"]) [s2l "a.env"]
          = Some (Return {[ s2l "A" := s2l "1" ]})) as H2 by by vm_compute.
  repeat (split; [assumption|]).
  exact (proj1 (Read_refuses_other_extensions _ [s2l "a.env"] "b.env.bak"
                  [s2l "c.env"] _ H1 H2) _ (λ _ _, eq_refl)).
Defined.

(** X19.  Reading two lists of files one after the other gives the
    mappings of both, and where both bind a key the later file wins.  Each
    file is parsed on its own: a reference in a later file does not see
    the variables of an earlier one. *)
Theorem Read_later_file_wins (open : str → error + list str)
    (first second : list str) (m1 m2 : gmap str str) :
  Read open first = Some (Return m1) →
  Read open second = Some (Return m2) →
  Read open (first ++ second) = Some (Return (m2 ∪ m1))
  ∧ ∀ key, (m2 ∪ m1) !! key
           = match m2 !! key with Some v => Some v | None => m1 !! key end.
Proof.
  intros H1 H2. rewrite Read_app, H1, H2. split; [done|].
  intros key. rewrite lookup_union. by destruct (m2 !! key), (m1 !! key).
Qed.

Lemma Read_later_file_wins_witness :
  Read (λ f, if bool_decide (f = s2l "a.env") then inr [s2l "A=1"; s2l "B=2"]
             else inr [s2l "B=${A}3"]) [s2l "a.env"]
  = Some (Return {[ s2l "A" := s2l "1"; s2l "B" := s2l "2" ]})
  ∧ Read (λ f, if bool_decide (f = s2l "a.env") then inr [s2l "A=1"; s2l "B=2"]
               else inr [s2l "B=${A}3"]) [s2l "b.env"]
    = Some (Return {[ s2l "B" := s2l "3" ]})
  ∧ Read (λ f, if bool_decide (f = s2l "a.env") then inr [s2l "A=1"; s2l "B=2"]
               else inr [s2l "B=${A}3"]) ([s2l "a.env"] ++ [s2l "b.env"])
    = Some (Return ({[ s2l "B" := s2l "3" ]}
                    ∪ {[ s2l "A" := s2l "1"; s2l "B" := s2l "2" ]})).
Proof.
  set (open := λ f : str, if bool_decide (f = s2l "a.env")
                          then inr [s2l "A=1"; s2l "B=2"]
                          else inr [s2l "B=${A}3"] : error + list str).
  assert (Read open [s2l "a.env"]
          = Some (Return {[ s2l "A" := s2l "1"; s2l "B" := s2l "2" ]})) as H1
    by by vm_compute.
  assert (Read open [s2l "b.env"] = Some (Return {[ s2l "B" := s2l "3" ]}))
    as H2 by by vm_compute.
  repeat (split; [assumption|]).
  exact (proj1 (Read_later_file_wins open _ _ _ _ H1 H2)).
Defined.

(** X20.  For one file whose name ends in [.env] and that opens, [Read]
    is [Parse] of its lines. *)
Theorem Read_one_file (open : str → error + list str) (filename : str)
    (envFile : list str) :
  s2l ".env" `suffix_of` filename → open filename = inr envFile →
  Read open [filename] = Parse envFile.
Proof.
  intros Hext Hopen. unfold Read. simpl.
  rewrite bool_decide_eq_true_2 by by apply Ext_env.
  simpl. rewrite Hopen.
  destruct (Parse envFile) as [[vars| |]|]; try done.
  by rewrite mergeInto_union, (right_id_L ∅ (∪)).
Qed.

Lemma Read_one_file_witness :
  s2l ".env" `suffix_of` s2l "conf/.env"
  ∧ (λ _ : str, inr [s2l "A=1"] : error + list str) (s2l "conf/.env")
    = inr [s2l "A=1"]
  ∧ Read (λ _, inr [s2l "A=1"]) [s2l "conf/.env"] = Parse [s2l "A=1"].
Proof.
  assert (s2l ".env" `suffix_of` s2l "conf/.env") as H1.
  { by exists (s2l "conf/"). }
  split; [exact H1|]. split; [done|].
  exact (Read_one_file (λ _, inr [s2l "A=1"]) "conf/.env" _ H1 eq_refl).
Defined.

(** X21.  When [Read] returns a mapping in which no key and no value
    holds a NUL byte, [Load] succeeds in whatever order it visits the
    entries, and the environment afterwards is the old one overridden by
    the mapping: no check of the keys is left for [os.Setenv] to fail. *)
Theorem Load_sets_every_variable (open : str → error + list str)
    (order : list (str * str) → list (str * str)) (filenames : list str)
    (environ vars : gmap str str) :
  (∀ entries, order entries ≡ₚ entries) →
  Read open filenames = Some (Return vars) →
  (∀ key val, vars !! key = Some val → (os.NUL ∉ key) ∧ (os.NUL ∉ val)) →
  Load open order filenames environ = Some (Return (), vars ∪ environ).
Proof.
  intros Hperm Hread Hnul. unfold Load. rewrite Hread. f_equal.
  destruct (list_to_map_order order vars Hperm) as [Hnd Hmap].
  rewrite setenvLoop_ok, Hmap; [done..|].
  apply Forall_forall. intros [key val] Hin. simpl.
  rewrite (Hperm (map_to_list vars)) in Hin.
  apply elem_of_map_to_list in Hin.
  assert (storedKey key) as [(c & key' & -> & _) [Heq _]].
  { eapply (readLoop_keys open filenames ∅ vars); [|exact Hread|by eexists].
    intros k [x Hx]. by rewrite lookup_empty in Hx. }
  destruct (Hnul _ _ Hin). done.
Qed.

Lemma Load_sets_every_variable_witness :
  (∀ entries : list (str * str), reverse entries ≡ₚ entries)
  ∧ Read (λ _, inr [s2l "A=1"; s2l "B=2"]) [s2l ".env"]
    = Some (Return {[ s2l "A" := s2l "1"; s2l "B" := s2l "2" ]})
  ∧ (∀ key val,
       ({[ s2l "A" := s2l "1"; s2l "B" := s2l "2" ]} : gmap str str) !! key
       = Some val → (os.NUL ∉ key) ∧ (os.NUL ∉ val))
  ∧ Load (λ _, inr [s2l "A=1"; s2l "B=2"]) reverse [s2l ".env"]
         {[ s2l "A" := s2l "0"; s2l "HOME" := s2l "/root" ]}
    = Some (Return (),
            {[ s2l "A" := s2l "1"; s2l "B" := s2l "2" ]}
            ∪ {[ s2l "A" := s2l "0"; s2l "HOME" := s2l "/root" ]}).
Proof.
  assert (∀ entries : list (str * str), reverse entries ≡ₚ entries) as H1
    by apply reverse_Permutation.
  assert (Read (λ _, inr [s2l "A=1"; s2l "B=2"]) [s2l ".env"]
          = Some (Return {[ s2l "A" := s2l "1"; s2l "B" := s2l "2" ]})) as H2
    by by vm_compute.
  assert (∀ key val,
       ({[ s2l "A" := s2l "1"; s2l "B" := s2l "2" ]} : gmap str str) !! key
       = Some val → (os.NUL ∉ key) ∧ (os.NUL ∉ val)) as H3.
  { intros key val Hl.
    destruct (decide (key = s2l "A")) as [->|HA].
    { rewrite lookup_insert_eq in Hl. injection Hl as <-.
      split; compute_done. }
    rewrite lookup_insert_ne in Hl by done.
    destruct (decide (key = s2l "B")) as [->|HB].
    { rewrite lookup_singleton_eq in Hl. injection Hl as <-.
      split; compute_done. }
    by rewrite lookup_singleton_ne in Hl. }
  repeat (split; [assumption|]).
  exact (Load_sets_every_variable _ reverse [s2l ".env"] _ _ H1 H2 H3).
Defined.



End extras.
